(** * index-search: a directory indexer and its substring search

    A shallow embedding of [main.go]: the walk callback that builds the
    slice of [FileInfo], the CSV table written to [index.csv], and
    [search], which loads that table and prints the rows whose first
    column contains the query.

    The Go standard library functions the program calls are embedded from
    their documented behaviour: [strings.HasPrefix], [strings.Contains],
    [strconv.FormatInt], [os.File.Read], [http.DetectContentType],
    [filepath.Walk], [csv.Writer.Write], [csv.Reader.ReadAll] and, for the
    flags [init] defines, [flag.Parse].  [filepath.Join] is kept
    abstract.

    Go strings and byte slices are both sequences of bytes: they are
    lists of [ascii] here, and [str] turns a literal into one. *)

From Stdlib Require Import String Ascii List Bool Arith NArith ZArith Lia.
From Stdlib Require Import DecimalString DecimalZ.
Import ListNotations.

Set Warnings "-register-all".

(* ================================================================= *)
(** ** Bytes and strings *)

Definition bytes := list ascii.

Definition str (s : string) : bytes := list_ascii_of_string s.
Arguments str s%_string.

Definition byteOf (n : N) : ascii := ascii_of_N n.
Definition code (b : ascii) : N := N_of_ascii b.

Definition NL : ascii := byteOf 10.
Definition CR : ascii := byteOf 13.
Definition QUOTE : ascii := byteOf 34.
Definition Comma : ascii := byteOf 44.
Definition NUL : ascii := byteOf 0.

Definition beq (a b : ascii) : bool := Ascii.eqb a b.

Fixpoint bytes_eqb (a b : bytes) : bool :=
  match a, b with
  | [], [] => true
  | x :: a', y :: b' => beq x y && bytes_eqb a' b'
  | _, _ => false
  end.

(** [strings.HasPrefix(s, prefix)] and [bytes.HasPrefix]. *)
Fixpoint HasPrefix (s prefix : bytes) {struct prefix} : bool :=
  match prefix, s with
  | [], _ => true
  | p :: prefix', c :: s' => beq c p && HasPrefix s' prefix'
  | _ :: _, [] => false
  end.

(** [strings.Index(s, substr)]: the offset of the first occurrence of
    [substr] in [s]; [None] stands for Go's [-1]. *)
Fixpoint Index (s substr : bytes) : option nat :=
  if HasPrefix s substr then Some 0
  else match s with
       | [] => None
       | _ :: s' => option_map S (Index s' substr)
       end.

(** [strings.Contains(s, substr)] is [Index(s, substr) >= 0]. *)
Definition Contains (s substr : bytes) : bool :=
  match Index s substr with Some _ => true | None => false end.

(** [bytes.IndexByte(b, c)]. *)
Fixpoint IndexByte (b : bytes) (c : ascii) : option nat :=
  match b with
  | [] => None
  | x :: b' => if beq x c then Some 0 else option_map S (IndexByte b' c)
  end.

(** [strconv.FormatInt(i, 10)]: an optional minus sign and the decimal
    digits, without leading zeros. *)
Definition FormatInt (i : Z) : bytes :=
  str (NilZero.string_of_int (Z.to_int i)).

(* ================================================================= *)
(** ** net/http: content sniffing *)

Module Sniff.

(** The algorithm uses at most [sniffLen] bytes to make its decision. *)
Definition sniffLen : nat := 512.

Definition isWS (b : ascii) : bool :=
  match code b with
  | 9 | 10 | 12 | 13 | 32 => true
  | _ => false
  end%N.

Definition isTT (b : ascii) : bool :=
  match code b with
  | 32 | 62 => true
  | _ => false
  end%N.

(** The implementations of the [sniffSig] interface. *)
Inductive sniffSig : Type :=
| htmlSig (h : bytes)
| maskedSig (mask pat : bytes) (skipWS : bool) (ct : bytes)
| exactSig (sig : bytes) (ct : bytes)
| mp4Sig
| textSig.

Definition raw (l : list nat) : bytes := map ascii_of_nat l.

Definition zeros (n : nat) : bytes := repeat NUL n.
Definition ffs (n : nat) : bytes := repeat (byteOf 255) n.

Definition text_html : bytes := str "text/html; charset=utf-8".
Definition text_plain : bytes := str "text/plain; charset=utf-8".
Definition octet_stream : bytes := str "application/octet-stream".

(** Data matching the table in section 6 of the MIME sniffing standard. *)
Definition magicSignatures : list sniffSig :=
  [ htmlSig (str "<!DOCTYPE HTML");
    htmlSig (str "<HTML");
    htmlSig (str "<HEAD");
    htmlSig (str "<SCRIPT");
    htmlSig (str "<IFRAME");
    htmlSig (str "<H1");
    htmlSig (str "<DIV");
    htmlSig (str "<FONT");
    htmlSig (str "<TABLE");
    htmlSig (str "<A");
    htmlSig (str "<STYLE");
    htmlSig (str "<TITLE");
    htmlSig (str "<B");
    htmlSig (str "<BODY");
    htmlSig (str "<BR");
    htmlSig (str "<P");
    htmlSig (str "<!--");
    maskedSig (ffs 5) (str "<?xml") true (str "text/xml; charset=utf-8");
    exactSig (str "%PDF-") (str "application/pdf");
    exactSig (str "%!PS-Adobe-") (str "application/postscript");
    (* UTF BOMs. *)
    maskedSig (raw [255; 255; 0; 0]) (raw [254; 255; 0; 0]) false
              (str "text/plain; charset=utf-16be");
    maskedSig (raw [255; 255; 0; 0]) (raw [255; 254; 0; 0]) false
              (str "text/plain; charset=utf-16le");
    maskedSig (raw [255; 255; 255; 0]) (raw [239; 187; 191; 0]) false
              (str "text/plain; charset=utf-8");
    (* Image types. *)
    exactSig (raw [0; 0; 1; 0]) (str "image/x-icon");
    exactSig (raw [0; 0; 2; 0]) (str "image/x-icon");
    exactSig (str "BM") (str "image/bmp");
    exactSig (str "GIF87a") (str "image/gif");
    exactSig (str "GIF89a") (str "image/gif");
    exactSig (raw [137; 80; 78; 71; 13; 10; 26; 10]) (str "image/png");
    exactSig (raw [255; 216; 255]) (str "image/jpeg");
    maskedSig (ffs 4 ++ zeros 4 ++ ffs 6)
              (str "RIFF" ++ zeros 4 ++ str "WEBPVP") false (str "image/webp");
    (* Audio and video types. *)
    maskedSig (ffs 4) (str ".snd") false (str "audio/basic");
    maskedSig (ffs 4 ++ zeros 4 ++ ffs 4)
              (str "FORM" ++ zeros 4 ++ str "AIFF") false (str "audio/aiff");
    maskedSig (ffs 3) (str "ID3") false (str "audio/mpeg");
    maskedSig (ffs 5) (str "OggS" ++ zeros 1) false (str "application/ogg");
    maskedSig (ffs 8) (str "MThd" ++ raw [0; 0; 0; 6]) false (str "audio/midi");
    maskedSig (ffs 4 ++ zeros 4 ++ ffs 4)
              (str "RIFF" ++ zeros 4 ++ str "AVI ") false (str "video/avi");
    maskedSig (ffs 4 ++ zeros 4 ++ ffs 4)
              (str "RIFF" ++ zeros 4 ++ str "WAVE") false (str "audio/wave");
    mp4Sig;
    exactSig (raw [26; 69; 223; 163]) (str "video/webm");
    (* Font types. *)
    maskedSig (zeros 34 ++ ffs 2) (zeros 34 ++ str "LP") false
              (str "application/vnd.ms-fontobject");
    exactSig (raw [0; 1; 0; 0]) (str "font/ttf");
    exactSig (str "OTTO") (str "font/otf");
    exactSig (str "ttcf") (str "font/collection");
    exactSig (str "wOFF") (str "font/woff");
    exactSig (str "wOF2") (str "font/woff2");
    (* Archive types. *)
    exactSig (raw [31; 139; 8]) (str "application/x-gzip");
    exactSig (str "PK" ++ raw [3; 4]) (str "application/zip");
    exactSig (str "Rar!" ++ raw [26; 7; 0]) (str "application/x-rar-compressed");
    exactSig (str "Rar!" ++ raw [26; 7; 1; 0]) (str "application/x-rar-compressed");
    exactSig (raw [0; 97; 115; 109]) (str "application/wasm") ].

(** [textSig] should be last. *)
Definition sniffSignatures : list sniffSig := magicSignatures ++ [textSig].

(** The index of the first non-whitespace byte in [data]. *)
Fixpoint firstNonWS (data : bytes) : nat :=
  match data with
  | b :: data' => if isWS b then S (firstNonWS data') else 0
  | [] => 0
  end.

Definition isUpper (b : ascii) : bool := (65 <=? code b)%N && (code b <=? 90)%N.

Definition band (a b : ascii) : ascii := byteOf (N.land (code a) (code b)).

(** The loop of [htmlSig.match]: case-insensitive on the letters of [h]. *)
Fixpoint htmlLoop (h data : bytes) : bool :=
  match h, data with
  | [], _ => true
  | b :: h', db :: data' =>
      let db := if isUpper b then band db (byteOf 223) else db in
      beq b db && htmlLoop h' data'
  | _ :: _, [] => false
  end.

(** The loop of [maskedSig.match]. *)
Fixpoint maskedLoop (pat mask data : bytes) : bool :=
  match pat, mask, data with
  | [], _, _ => true
  | pb :: pat', m :: mask', d :: data' =>
      beq (band d m) pb && maskedLoop pat' mask' data'
  | _, _, _ => false
  end.

(** [binary.BigEndian.Uint32]. *)
Definition Uint32 (b : bytes) : N :=
  fold_left (fun acc x => acc * 256 + code x)%N (firstn 4 b) 0%N.

Definition slice (data : bytes) (lo hi : nat) : bytes :=
  firstn (hi - lo) (skipn lo data).

(** The loop of [mp4Sig.match], [st] running from 8 in steps of 4 while
    below [boxSize]; [n] bounds the number of iterations. *)
Fixpoint mp4Loop (n : nat) (data : bytes) (boxSize st : nat) : bool :=
  match n with
  | 0 => false
  | S n' =>
      if st <? boxSize then
        if st =? 12 then mp4Loop n' data boxSize (st + 4)
        else if bytes_eqb (slice data st (st + 3)) (str "mp4") then true
             else mp4Loop n' data boxSize (st + 4)
      else false
  end.

(** The bytes that stop [textSig]: the binary data bytes. *)
Definition isBinary (b : ascii) : bool :=
  (code b <=? 8)%N
  || (code b =? 11)%N
  || ((14 <=? code b)%N && (code b <=? 26)%N)
  || ((28 <=? code b)%N && (code b <=? 31)%N).

(** [sig.match(data, firstNonWS)]: the MIME type, or the empty string if
    unknown. *)
Definition sigMatch (sig : sniffSig) (data : bytes) (fnws : nat) : bytes :=
  match sig with
  | exactSig s ct => if HasPrefix data s then ct else []
  | maskedSig mask pat skipWS ct =>
      let data := if skipWS then skipn fnws data else data in
      if negb (length pat =? length mask) then []
      else if length data <? length pat then []
      else if maskedLoop pat mask data then ct else []
  | htmlSig h =>
      let data := skipn fnws data in
      if length data <? length h + 1 then []
      else if negb (htmlLoop h data) then []
      else if negb (isTT (nth (length h) data NUL)) then []
      else text_html
  | mp4Sig =>
      if length data <? 12 then []
      else
        let boxSize := Uint32 data in
        if (N.of_nat (length data) <? boxSize)%N || negb (boxSize mod 4 =? 0)%N
        then []
        else if negb (bytes_eqb (slice data 4 8) (str "ftyp")) then []
        else if mp4Loop (length data) data (N.to_nat boxSize) 8
             then str "video/mp4" else []
  | textSig =>
      if existsb isBinary (skipn fnws data) then [] else text_plain
  end.

Fixpoint firstMatch (sigs : list sniffSig) (data : bytes) (fnws : nat) : bytes :=
  match sigs with
  | [] => octet_stream (* fallback *)
  | sig :: sigs' =>
      match sigMatch sig data fnws with
      | [] => firstMatch sigs' data fnws
      | ct => ct
      end
  end.

(** [http.DetectContentType(data)]. *)
Definition DetectContentType (data : bytes) : bytes :=
  let data := firstn sniffLen data in
  firstMatch sniffSignatures data (firstNonWS data).

(** The type a signature stands for. *)
Definition ctOf (sig : sniffSig) : bytes :=
  match sig with
  | htmlSig _ => text_html
  | maskedSig _ _ _ ct => ct
  | exactSig _ ct => ct
  | mp4Sig => str "video/mp4"
  | textSig => text_plain
  end.

(** Every type the detector can answer. *)
Definition contentTypes : list bytes :=
  octet_stream :: map ctOf sniffSignatures.

End Sniff.

(* ================================================================= *)
(** ** encoding/csv *)

Module Csv.

(** The errors a [Reader] can return.  [ErrSteps] is not a Go error: it
    marks the exhaustion of the step budget of the loops below, which
    [ReadAll] sets high enough for it never to happen
    ([CsvFacts.ReadAll_steps]). *)
Inductive error : Type :=
| EOF
| ErrBareQuote
| ErrQuote
| ErrFieldCount
| ErrSteps.

(** *** Writer *)

(** [utf8.DecodeRuneInString]: the first rune of [s]; invalid encodings
    give [RuneError]. *)
Definition RuneError : N := 65533.

Definition cont (b : ascii) : bool := (128 <=? code b)%N && (code b <=? 191)%N.

Definition inRange (lo hi : N) (b : ascii) : bool :=
  (lo <=? code b)%N && (code b <=? hi)%N.

Definition DecodeRuneInString (s : bytes) : N :=
  match s with
  | [] => RuneError
  | b0 :: s1 =>
      let c0 := code b0 in
      if (c0 <? 128)%N then c0
      else if inRange 194 223 b0 then
        match s1 with
        | b1 :: _ => if cont b1 then ((c0 - 192) * 64 + (code b1 - 128))%N
                     else RuneError
        | _ => RuneError
        end
      else if inRange 224 239 b0 then
        match s1 with
        | b1 :: b2 :: _ =>
            let lo := if (c0 =? 224)%N then 160%N else 128%N in
            let hi := if (c0 =? 237)%N then 159%N else 191%N in
            if inRange lo hi b1 && cont b2
            then ((c0 - 224) * 4096 + (code b1 - 128) * 64 + (code b2 - 128))%N
            else RuneError
        | _ => RuneError
        end
      else if inRange 240 244 b0 then
        match s1 with
        | b1 :: b2 :: b3 :: _ =>
            let lo := if (c0 =? 240)%N then 144%N else 128%N in
            let hi := if (c0 =? 244)%N then 143%N else 191%N in
            if inRange lo hi b1 && cont b2 && cont b3
            then ((c0 - 240) * 262144 + (code b1 - 128) * 4096
                  + (code b2 - 128) * 64 + (code b3 - 128))%N
            else RuneError
        | _ => RuneError
        end
      else RuneError
  end.

(** [unicode.IsSpace]: the code points with the White_Space property. *)
Definition IsSpace (r : N) : bool :=
  ((9 <=? r) && (r <=? 13) || (r =? 32) || (r =? 133) || (r =? 160)
   || (r =? 5760) || ((8192 <=? r) && (r <=? 8202))
   || (r =? 8232) || (r =? 8233) || (r =? 8239) || (r =? 8287)
   || (r =? 12288))%N.

Definition special (c : ascii) : bool :=
  beq c NL || beq c CR || beq c QUOTE || beq c Comma.

(** [fieldNeedsQuotes] reports whether the field cannot be written as it
    is. *)
Definition fieldNeedsQuotes (field : bytes) : bool :=
  match field with
  | [] => false
  | _ =>
      if bytes_eqb field (str "\.") then true
      else if existsb special field then true
      else IsSpace (DecodeRuneInString field)
  end.

(** The body of a quoted field: a quote is written twice, every other
    byte as it is (carriage returns and newlines too: [UseCRLF] is
    false). *)
Definition escape (field : bytes) : bytes :=
  flat_map (fun c => if beq c QUOTE then [QUOTE; QUOTE] else [c]) field.

Definition writeField (field : bytes) : bytes :=
  if fieldNeedsQuotes field then QUOTE :: escape field ++ [QUOTE] else field.

(** The fields of a record, separated by commas. *)
Fixpoint writeFields (record : list bytes) : bytes :=
  match record with
  | [] => []
  | [field] => writeField field
  | field :: record' => writeField field ++ Comma :: writeFields record'
  end.

(** [w.Write(record)]: what one call appends to the output. *)
Definition Write (record : list bytes) : bytes := writeFields record ++ [NL].

(** *** Reader *)

(** [bufio.Reader.ReadSlice('\n')] on the input that is left: the bytes
    up to and including the first newline and what follows it, or
    everything when no newline is left. *)
Fixpoint ReadSlice (input : bytes) : bytes * bytes :=
  match input with
  | [] => ([], [])
  | c :: input' =>
      if beq c NL then ([c], input')
      else let (line, rest) := ReadSlice input' in (c :: line, rest)
  end.

(** [lengthNL] reports the number of bytes for the trailing newline. *)
Definition lengthNL (b : bytes) : nat :=
  match rev b with
  | c :: _ => if beq c NL then 1 else 0
  | [] => 0
  end.

(** For backwards compatibility, drop a trailing carriage return before
    the end of the input. *)
Definition dropCR (line : bytes) : bytes :=
  match rev line with
  | c :: _ => if beq c CR then removelast line else line
  | [] => line
  end.

(** Normalize a final carriage return and newline to a newline. *)
Definition normalize (line : bytes) : bytes :=
  match rev line with
  | n :: r :: _ =>
      if beq r CR && beq n NL then removelast (removelast line) ++ [NL]
      else line
  | _ => line
  end.

(** [r.readLine()]: the next line with its newline, the input left, and
    whether the end of the input was met ([err == io.EOF]). *)
Definition readLine (input : bytes) : bytes * bytes * bool :=
  match input with
  | [] => ([], [], true)
  | _ =>
      let (line, rest) := ReadSlice input in
      let line := if lengthNL line =? 0 then dropCR line else line in
      (normalize line, rest, false)
  end.

(** The loop at the head of [readRecord] that skips empty lines; [n]
    bounds its iterations. *)
Fixpoint skipEmpty (n : nat) (input : bytes) : bytes * bytes * option error :=
  match n with
  | 0 => ([], input, Some ErrSteps)
  | S n' =>
      let '(line, rest, eof) := readLine input in
      if eof then ([], rest, Some EOF)
      else if length line =? lengthNL line then skipEmpty n' rest
      else (line, rest, None)
  end.

(** Whether the line opens with a quote, and then what follows the
    quote; [None] when the line is empty or starts a non-quoted field. *)
Definition quoted (line : bytes) : option bytes :=
  match line with
  | c :: line' => if beq c QUOTE then Some line' else None
  | [] => None
  end.

(** The [parseField] loop of [readRecord] and, inside it, the loop over
    the lines of a quoted field.  [fields] holds the fields completed so
    far and [cur] the bytes of the quoted field being read (the record
    buffer past the last field index); [line] is the unread part of the
    current line and [rest] the input after it.  [n] bounds the number of
    iterations. *)
Fixpoint parseField (n : nat) (line rest : bytes) (fields : list bytes)
  : list bytes * option error * bytes :=
  match n with
  | 0 => (fields, Some ErrSteps, rest)
  | S n' =>
      match quoted line with
      | None =>
          (* Non-quoted string field *)
          let i := IndexByte line Comma in
          let field :=
            match i with
            | Some i => firstn i line
            | None => firstn (length line - lengthNL line) line
            end in
          (* Check to make sure a quote does not appear in field. *)
          match IndexByte field QUOTE with
          | Some _ => (fields, Some ErrBareQuote, rest)
          | None =>
              match i with
              | Some i =>
                  parseField n' (skipn (i + 1) line) rest (fields ++ [field])
              | None => (fields ++ [field], None, rest)
              end
          end
      | Some line' =>
          (* Quoted string field *)
          parseQuoted n' line' rest [] fields
      end
  end

with parseQuoted (n : nat) (line rest cur : bytes) (fields : list bytes)
  : list bytes * option error * bytes :=
  match n with
  | 0 => (fields, Some ErrSteps, rest)
  | S n' =>
      match IndexByte line QUOTE with
      | Some i =>
          (* Hit next quote. *)
          let cur := cur ++ firstn i line in
          let line := skipn (i + 1) line in
          match line with
          | c :: line' =>
              if beq c QUOTE then
                (* a doubled quote: append a quote *)
                parseQuoted n' line' rest (cur ++ [QUOTE]) fields
              else if beq c Comma then
                (* a quote and a comma: end of field *)
                parseField n' line' rest (fields ++ [cur])
              else if lengthNL line =? length line then
                (* a quote and the newline: end of line *)
                (fields ++ [cur], None, rest)
              else
                (* invalid non-escaped quote *)
                (fields, Some ErrQuote, rest)
          | [] => (fields ++ [cur], None, rest)
          end
      | None =>
          match line with
          | _ :: _ =>
              (* Hit end of line (copy all data so far). *)
              let '(line', rest', _) := readLine rest in
              parseQuoted n' line' rest' (cur ++ line) fields
          | [] =>
              (* Abrupt end of file. *)
              (fields, Some ErrQuote, rest)
          end
      end
  end.

(** [r.readRecord]: the next record, the error, the input left and the
    number of fields expected from now on.  [FieldsPerRecord] is 0 in a
    new [Reader]: the first record sets it. *)
Definition readRecord (input : bytes) (FieldsPerRecord : nat)
  : list bytes * option error * bytes * nat :=
  let '(line, rest, errRead) := skipEmpty (S (length input)) input in
  match errRead with
  | Some e => ([], Some e, rest, FieldsPerRecord)
  | None =>
      let '(dst, err, rest') :=
        parseField (S (length line + length rest)) line rest [] in
      (* Check or update the expected fields per record. *)
      if 0 <? FieldsPerRecord then
        match err with
        | None =>
            if negb (length dst =? FieldsPerRecord)
            then (dst, Some ErrFieldCount, rest', FieldsPerRecord)
            else (dst, None, rest', FieldsPerRecord)
        | Some _ => (dst, err, rest', FieldsPerRecord)
        end
      else (dst, err, rest', length dst)
  end.

(** The loop of [ReadAll]; [n] bounds its iterations. *)
Fixpoint readRecords (n : nat) (input : bytes) (FieldsPerRecord : nat)
                     (records : list (list bytes))
  : list (list bytes) * option error :=
  match n with
  | 0 => ([], Some ErrSteps)
  | S n' =>
      let '(record, err, rest, fpr) := readRecord input FieldsPerRecord in
      match err with
      | Some EOF => (records, None)
      | Some e => ([], Some e)
      | None => readRecords n' rest fpr (records ++ [record])
      end
  end.

(** [csv.NewReader(file).ReadAll()] on a file holding [input]: every
    record, or no record and the first error. *)
Definition ReadAll (input : bytes) : list (list bytes) * option error :=
  readRecords (S (length input)) input 0 [].

End Csv.

(* ================================================================= *)
(** ** The file system the program reads *)

(** The Go errors the program meets. *)
Inductive error : Type :=
| SkipDir                      (* filepath.SkipDir *)
| io_EOF                       (* io.EOF *)
| ErrLstat (path : bytes)      (* os.Lstat fails *)
| ErrReadDir (path : bytes)    (* the directory cannot be listed *)
| ErrOpen (path : bytes)       (* os.Open fails *)
| ErrRead (path : bytes).      (* file.Read fails *)

Definition isSkipDir (e : error) : bool :=
  match e with SkipDir => true | _ => false end.

(** What [os.Open] and [Read] find behind a name that is not a
    directory. *)
Inductive content : Type :=
| Unopenable
| Unreadable
| Holds (data : bytes).

(** A directory tree as [filepath.Walk] meets it.  The entries of a
    directory are in the order in which [readDirNames] returns their
    names (sorted), which is the order of the walk. *)
Inductive node : Type :=
| File (name : bytes) (size : Z) (c : content)
| Dir (name : bytes) (entries : list node)
| DirErr (name : bytes)        (* a directory that cannot be listed *)
| Gone (name : bytes).         (* an entry on which lstat fails *)

(** The methods of [os.FileInfo] the program calls. *)
Definition infoName (info : node) : bytes :=
  match info with
  | File name _ _ | Dir name _ | DirErr name | Gone name => name
  end.

Definition infoSize (info : node) : Z :=
  match info with
  | File _ size _ => size
  | _ => 0%Z
  end.

Definition IsDir (info : node) : bool :=
  match info with
  | Dir _ _ | DirErr _ => true
  | _ => false
  end.

(** [os.Open(path)] on a name that is not a directory. *)
Definition Open (path : bytes) (info : node) : content + error :=
  match info with
  | File _ _ Unopenable => inr (ErrOpen path)
  | File _ _ c => inl c
  | _ => inr (ErrOpen path)
  end.

(** [make([]byte, n)]. *)
Definition make (n : nat) : bytes := repeat NUL n.

(** [file.Read(b)]: the buffer with the first bytes of the file copied
    over its start, the number of bytes read, and the error.  At end of
    file, Read returns 0 and [io.EOF]. *)
Definition Read (path : bytes) (file : content) (b : bytes)
  : bytes * nat * option error :=
  match file with
  | Holds data =>
      if length b =? 0 then (b, 0, None)
      else
        match data with
        | [] => (b, 0, Some io_EOF)
        | _ =>
            let n := Nat.min (length b) (length data) in
            (firstn n data ++ skipn n b, n, None)
        end
  | _ => (b, 0, Some (ErrRead path))
  end.

(* ================================================================= *)
(** ** main.go *)

(** [FileInfo] is a struct that holds the details of each file. *)
Record FileInfo : Type := mkFileInfo {
  Name : bytes;
  Size : Z;
  Type_ : bytes;
  Path : bytes
}.

(** The CLI flags ([verbose] only changes the log level). *)
Record flags : Type := mkFlags {
  index : bool;
  searchQuery : bytes;
  directory : bytes
}.

(** What [search] does. *)
Inductive searchResult : Type :=
| IndexNotFound                        (* log.Fatalw: index.csv cannot be opened *)
| EmptyIndexWarning                    (* log.Warnw: Index file is empty. *)
| IndexReadError (e : Csv.error)       (* log.Fatalw: Failed to read index file *)
| Printed (lines : list (list bytes)). (* the lines printed, in order *)

(** The loop of [search] over [lines[1:]]. *)
Fixpoint searchLoop (lines : list (list bytes)) (query : bytes)
  : list (list bytes) :=
  match lines with
  | [] => []
  | line :: lines' =>
      (* Make sure the line has at least one column. *)
      match line with
      | name :: _ =>
          (* We assume that Name is in the first column *)
          if Contains name query then line :: searchLoop lines' query
          else searchLoop lines' query
      | [] => searchLoop lines' query
      end
  end.

(** [search] from the check of the lines slice on: [lines] and [err] are
    what [reader.ReadAll()] returned. *)
Definition searchLines (lines : list (list bytes)) (err : option Csv.error)
                       (query : bytes) : searchResult :=
  (* Check if the lines slice is empty *)
  if length lines =? 0 then EmptyIndexWarning
  else
    match err with
    | Some e => IndexReadError e
    | None =>
        (* The first line is the header, skip it *)
        Printed (searchLoop (skipn 1 lines) query)
    end.

(** [search(query)], given what [./index.csv] holds, if it exists. *)
Definition search (indexCsv : option bytes) (query : bytes) : searchResult :=
  match indexCsv with
  | None => IndexNotFound
  | Some file =>
      let (lines, err) := Csv.ReadAll file in
      searchLines lines err query
  end.

Definition header : list bytes := [str "Name"; str "Size"; str "Type"; str "Path"].

(** The row written for a file. *)
Definition row (fileInfo : FileInfo) : list bytes :=
  [ Name fileInfo; FormatInt (Size fileInfo); Type_ fileInfo; Path fileInfo ].

(** What the writer has written to [index.csv] once flushed. *)
Definition table (files : list FileInfo) : bytes :=
  Csv.Write header ++ flat_map (fun fileInfo => Csv.Write (row fileInfo)) files.

Section Indexer.

(** [filepath.Join(path, name)]. *)
Variable Join : bytes -> bytes -> bytes.

(** The function [main] passes to [filepath.Walk]; [files] is the slice
    it appends to. *)
Definition walkFn (path : bytes) (info : node) (err : option error)
                  (files : list FileInfo) : list FileInfo * option error :=
  match err with
  | Some e => (files, Some e)
  | None =>
      (* Exclude any ".git" directory *)
      if HasPrefix (infoName info) (str ".git") then
        if IsDir info then (files, Some SkipDir) (* Skip the directory *)
        else (files, None) (* Skip the file *)
      else if negb (IsDir info) then
        (* If it's not a directory, it's a file *)
        match Open path info with
        | inr e => (files, Some e)
        | inl file =>
            (* Create a buffer to read the content of the file *)
            let buffer := make 512 in
            (* Read from the file to the buffer *)
            let '(buffer, _, err) := Read path file buffer in
            match err with
            | Some e => (files, Some e)
            | None =>
                (* Attempt to detect the content type of the file *)
                let contentType := Sniff.DetectContentType buffer in
                (* Append the file details to the slice *)
                (files ++ [ {| Name := infoName info;
                               Size := infoSize info;
                               Type_ := contentType;
                               Path := path |} ], None)
            end
        end
      else (files, None)
  end.

(** [walk] recursively descends [path], calling [walkFn]. *)
Fixpoint walk (path : bytes) (info : node) (files : list FileInfo)
  : list FileInfo * option error :=
  match info with
  | Dir _ names =>
      let (files, err1) := walkFn path info None files in
      match err1 with
      | Some e => (files, Some e)
      | None =>
          (fix loop (names : list node) (files : list FileInfo)
             : list FileInfo * option error :=
             match names with
             | [] => (files, None)
             | entry :: names' =>
                 let filename := Join path (infoName entry) in
                 match entry with
                 | Gone _ =>
                     let (files, err) :=
                       walkFn filename entry (Some (ErrLstat filename)) files in
                     match err with
                     | Some e =>
                         if negb (isSkipDir e) then (files, Some e)
                         else loop names' files
                     | None => loop names' files
                     end
                 | _ =>
                     let (files, err) := walk filename entry files in
                     match err with
                     | Some e =>
                         if negb (IsDir entry) || negb (isSkipDir e)
                         then (files, Some e)
                         else loop names' files
                     | None => loop names' files
                     end
                 end
             end) names files
      end
  | DirErr _ =>
      (* readDirNames fails: walk returns what walkFn returns *)
      walkFn path info (Some (ErrReadDir path)) files
  | Gone _ => walkFn path info (Some (ErrLstat path)) files
  | File _ _ _ => walkFn path info None files
  end.

(** The loop of [walk] over the names of a directory, on its own. *)
Fixpoint walkLoop (path : bytes) (names : list node) (files : list FileInfo)
  : list FileInfo * option error :=
  match names with
  | [] => (files, None)
  | entry :: names' =>
      let filename := Join path (infoName entry) in
      match entry with
      | Gone _ =>
          let (files, err) :=
            walkFn filename entry (Some (ErrLstat filename)) files in
          match err with
          | Some e =>
              if negb (isSkipDir e) then (files, Some e)
              else walkLoop path names' files
          | None => walkLoop path names' files
          end
      | _ =>
          let (files, err) := walk filename entry files in
          match err with
          | Some e =>
              if negb (IsDir entry) || negb (isSkipDir e)
              then (files, Some e)
              else walkLoop path names' files
          | None => walkLoop path names' files
          end
      end
  end.

(** [filepath.Walk(root, walkFn)], [info] being what lies at [root]. *)
Definition Walk (root : bytes) (info : node) (files : list FileInfo)
  : list FileInfo * option error :=
  let (files, err) :=
    match info with
    | Gone _ => walkFn root info (Some (ErrLstat root)) files
    | _ => walk root info files
    end in
  match err with
  | Some SkipDir => (files, None)
  | _ => (files, err)
  end.

(** What the indexing part of [main] does. *)
Inductive indexResult : Type :=
| WalkFailed (e : error)           (* log.Fatalw: error while walking *)
| CreateFailed                     (* log.Fatalw: index.csv not created *)
| WriteFailed                      (* log.Fatalw: error while writing to index.csv *)
| Indexed (files : list FileInfo). (* log.Infow: index file created *)

(** What becomes of [./index.csv] when the program creates and writes
    it: [os.Create] fails; or it succeeds, which empties the file, and a
    write fails, so that [writer.Error()] is not nil after the flush and
    only the first [written] bytes of what the writer was given have
    reached the file; or every write succeeds. *)
Inductive diskState : Type :=
| NotCreatable
| WriteFails (written : nat)
| Writable.

(** The indexing part of [main]: the walk over what lies at [directory]
    and the writing of [./index.csv].  [disk] tells how [os.Create] and
    the writes go, and [indexCsv] what the file held before; the result
    comes with what it holds afterwards. *)
Definition BuildIndex (directory : bytes) (tree : node) (disk : diskState)
                      (indexCsv : option bytes)
  : indexResult * option bytes :=
  (* Create a slice to hold all the file information *)
  let files := [] in
  (* Walk through the specified directory recursively *)
  let (files, err) := Walk directory tree files in
  match err with
  | Some e => (WalkFailed e, indexCsv)
  | None =>
      (* Create a new CSV file called "index.csv" *)
      match disk with
      | NotCreatable => (CreateFailed, indexCsv)
      | WriteFails written =>
          (* Check if any error occurred while flushing *)
          (WriteFailed, Some (firstn written (table files)))
      | Writable => (Indexed files, Some (table files))
      end
  end.

(** What a run of the program does. *)
Inductive mainResult : Type :=
| NoDirectory                      (* log.Fatalw: no directory flag *)
| NoSearchOrIndex                  (* log.Fatalw: no search query or index flag *)
| Searched (r : searchResult)
| IndexFailed (r : indexResult)
| IndexedOnly (files : list FileInfo)
| IndexedAndSearched (files : list FileInfo) (r : searchResult).

Definition main (fl : flags) (tree : node) (disk : diskState)
                (indexCsv : option bytes) : mainResult * option bytes :=
  (* If the directory flag is not provided but the index flag is *)
  if (length (directory fl) =? 0) && index fl then (NoDirectory, indexCsv)
  (* If both searchQuery and index are false *)
  else if (length (searchQuery fl) =? 0) && negb (index fl)
  then (NoSearchOrIndex, indexCsv)
  (* If search query is provided and index is not, run the search *)
  else if negb (length (searchQuery fl) =? 0) && negb (index fl)
  then (Searched (search indexCsv (searchQuery fl)), indexCsv)
  else
    (* Otherwise, index the files *)
    match BuildIndex (directory fl) tree disk indexCsv with
    | (Indexed files, indexCsv') =>
        (* If the search query and the index flag are provided *)
        if negb (length (searchQuery fl) =? 0) && index fl
        then (IndexedAndSearched files (search indexCsv' (searchQuery fl)),
              indexCsv')
        else (IndexedOnly files, indexCsv')
    | (r, indexCsv') => (IndexFailed r, indexCsv')
    end.

End Indexer.

(* ================================================================= *)
(** ** The properties of the specification *)

(** [query] occurs in [s] as a contiguous run of bytes. *)
Definition substring (query s : bytes) : Prop :=
  exists pre post, s = pre ++ query ++ post.

(** The first field of the line, its name, contains the query. *)
Definition matches (query : bytes) (line : list bytes) : bool :=
  match line with
  | name :: _ => Contains name query
  | [] => false
  end.

(** The base name starts with the literal prefix [.git]. *)
Definition excluded (name : bytes) : Prop :=
  exists rest, name = str ".git" ++ rest.

(** No carriage return is immediately followed by a newline. *)
Fixpoint noCRLF (s : bytes) : bool :=
  match s with
  | c :: s' =>
      match s' with
      | d :: _ => negb (beq c CR && beq d NL) && noCRLF s'
      | [] => true
      end
  | [] => true
  end.

(** Printable ASCII, tabs and line breaks. *)
Definition plainASCII (b : ascii) : bool :=
  ((32 <=? code b) && (code b <=? 126)
   || (code b =? 9) || (code b =? 10) || (code b =? 13))%N.

(** [s] between double quotes. *)
Definition quote (s : bytes) : bytes := QUOTE :: s ++ [QUOTE].

(** Sixteen and seventeen bytes of plain text, as [user1.json] and
    [user2.json] could hold them. *)
Definition user1_json : bytes :=
  str "{" ++ quote (str "name") ++ str ":" ++ quote (str "user1") ++ str "}".

Definition user2_json : bytes :=
  str "{" ++ quote (str "name") ++ str ": " ++ quote (str "user2") ++ str "}".

(** The sample [walkFn] hands to the detector for a file holding [data]:
    its first 512 bytes, over a buffer of 512 zero bytes. *)
Definition sample (data : bytes) : bytes :=
  firstn 512 data ++ repeat NUL (512 - length data).

(** No signature of the table other than the final text signature
    matches. *)
Definition noMagic (data : bytes) : bool :=
  forallb (fun sig =>
             match Sniff.sigMatch sig data (Sniff.firstNonWS data) with
             | [] => true
             | _ => false
             end) Sniff.magicSignatures.

(** A join for examples: the name after the path and a slash. *)
Definition slashJoin (path name : bytes) : bytes := path ++ str "/" ++ name.

(** A directory with two files of text, an excluded file, and an
    excluded directory that holds a file nobody can open. *)
Definition test_data : node :=
  Dir (str "test_data")
      [ Dir (str ".git") [ File (str "HEAD") 23 Unopenable ];
        File (str ".gitignore") 5 (Holds (str "*.csv"));
        Dir (str "data")
            [ File (str "user1.json") 16 (Holds user1_json);
              File (str "user2.json") 17 (Holds user2_json) ] ].


(** The same directory with a file that cannot be opened between the
    two files of text. *)
Definition locked_data : node :=
  Dir (str "test_data")
      [ Dir (str "data")
            [ File (str "user1.json") 16 (Holds user1_json);
              File (str "secret") 9 Unopenable;
              File (str "user2.json") 17 (Holds user2_json) ] ].

Section Tree.

Variable Join : bytes -> bytes -> bytes.

(** The files of the tree that the exclusion rule keeps, each with the
    path the traversal gives it, in traversal order: an entry whose name
    starts with [.git] is left out, with everything below it. *)
Fixpoint visible (path : bytes) (info : node) : list (bytes * node) :=
  if HasPrefix (infoName info) (str ".git") then []
  else match info with
       | File _ _ _ => [(path, info)]
       | Dir _ entries =>
           flat_map (fun entry => visible (Join path (infoName entry)) entry)
                    entries
       | _ => []
       end.

(** The record of a visible file. *)
Definition recordOf (entry : bytes * node) : FileInfo :=
  let (path, info) := entry in
  {| Name := infoName info;
     Size := infoSize info;
     Type_ :=
       Sniff.DetectContentType
         (match info with
          | File _ _ (Holds data) => sample data
          | _ => make 512
          end);
     Path := path |}.

(** Every entry the traversal reaches can be examined: directories can be
    listed, files opened and sampled, and no file it samples is empty. *)
Fixpoint sound (info : node) : bool :=
  match info with
  | Gone _ | DirErr _ => false
  | File name _ c =>
      HasPrefix name (str ".git")
      || match c with Holds (_ :: _) => true | _ => false end
  | Dir name entries => HasPrefix name (str ".git") || forallb sound entries
  end.

(** The traversal reaches an entry that cannot be examined: lstat fails,
    a directory cannot be listed, or a file cannot be opened or read. *)
Fixpoint broken (info : node) : bool :=
  match info with
  | Gone _ | DirErr _ => true
  | File name _ c =>
      negb (HasPrefix name (str ".git"))
      && match c with Unopenable | Unreadable => true | Holds _ => false end
  | Dir name entries =>
      negb (HasPrefix name (str ".git")) && existsb broken entries
  end.

(** What [walk] returns on a sound entry: a directory excluded by its
    name asks to be skipped. *)
Definition verdict (info : node) : option error :=
  if IsDir info && HasPrefix (infoName info) (str ".git")
  then Some SkipDir else None.

(** The walk of a sound entry appends the records of its visible files. *)
Definition walksWell (info : node) : Prop :=
  forall path files,
    sound info = true ->
    walk Join path info files
    = (files ++ map recordOf (visible path info), verdict info).

(** The walk of any other entry ends with an error that is not the
    request to skip a directory. *)
Definition walksBadly (info : node) : Prop :=
  forall path files,
    sound info = false ->
    exists files' e, walk Join path info files = (files', Some e)
                     /\ e <> SkipDir.

(** Whatever its outcome, the walk of an entry appends the records of
    its visible files, in order, up to some point. *)
Definition gathers (info : node) : Prop :=
  forall path files,
    exists k,
      fst (walk Join path info files)
      = files ++ map recordOf (firstn k (visible path info)).

End Tree.

(** *** The reader, seen from the input that is left *)

(** The parse loops started on the first line of [input]. *)
Definition parseFieldAt (n : nat) (input : bytes) (fields : list bytes)
  : list bytes * option Csv.error * bytes :=
  let '(line, rest, _) := Csv.readLine input in
  Csv.parseField n line rest fields.

Definition parseQuotedAt (n : nat) (input cur : bytes) (fields : list bytes)
  : list bytes * option Csv.error * bytes :=
  let '(line, rest, _) := Csv.readLine input in
  Csv.parseQuoted n line rest cur fields.

(** The number of iterations the loops spend on a quoted field, on a
    field and on a record. *)
Definition qsteps (field : bytes) : nat :=
  S (length (filter (fun c => beq c QUOTE || beq c NL) field)).

Definition fsteps (field : bytes) : nat :=
  if Csv.fieldNeedsQuotes field then S (qsteps field) else 1.

Definition rsteps (record : list bytes) : nat :=
  fold_right (fun field n => fsteps field + n) 0 record.

Definition noNL (s : bytes) : bool := forallb (fun c => negb (beq c NL)) s.

(** The byte [x] does not occur in [s]. *)
Definition lacks (x : ascii) (s : bytes) : bool :=
  negb (existsb (fun c => beq c x) s).

(** A decimal digit or the minus sign. *)
Definition numeric (c : ascii) : bool :=
  ((48 <=? code c) && (code c <=? 57) || (code c =? 45))%N.


(** The fields of a record that the table keeps as they are: no carriage
    return immediately before a newline in the name, the type or the
    path. *)
Definition keepsFields (fileInfo : FileInfo) : bool :=
  noCRLF (Name fileInfo) && noCRLF (Type_ fileInfo) && noCRLF (Path fileInfo).


(* ================================================================= *)
(** ** The command line *)

(** [init] defines eight flags, two names for each of the four global
    variables, and calls [flag.Parse()], which reads [os.Args[1:]] with
    the error handling [flag.ExitOnError].  The logger [init] then builds
    from [verbose] is not modelled. *)

(** The global variables the flags are bound to. *)
Record globals : Type := mkGlobals {
  verbose : bool;
  values : flags
}.

Inductive flagVar : Type :=
| VerboseVar
| IndexVar
| SearchQueryVar
| DirectoryVar.

(** What [parseOne] can fail with; [flag.Parse] then exits. *)
Inductive flagError : Type :=
| ErrHelp                            (* flag: help requested *)
| BadFlagSyntax (s : bytes)          (* bad flag syntax *)
| FlagNotDefined (name : bytes)      (* flag provided but not defined *)
| InvalidBoolean (value name : bytes) (* invalid boolean value *)
| InvalidValue (value name : bytes)  (* invalid value for flag *)
| FlagNeedsArgument (name : bytes).  (* flag needs an argument *)

Definition Minus : ascii := byteOf 45.
Definition Equals : ascii := byteOf 61.

(** [f.formal[name]] after the eight definitions of [init]. *)
Definition formal (name : bytes) : option flagVar :=
  if bytes_eqb name (str "v") || bytes_eqb name (str "verbose")
  then Some VerboseVar
  else if bytes_eqb name (str "i") || bytes_eqb name (str "index")
  then Some IndexVar
  else if bytes_eqb name (str "s") || bytes_eqb name (str "search")
  then Some SearchQueryVar
  else if bytes_eqb name (str "d") || bytes_eqb name (str "directory")
  then Some DirectoryVar
  else None.

(** [BoolVar] defines a flag that needs no argument. *)
Definition IsBoolFlag (v : flagVar) : bool :=
  match v with
  | VerboseVar | IndexVar => true
  | SearchQueryVar | DirectoryVar => false
  end.

(** [strconv.ParseBool]. *)
Definition ParseBool (s : bytes) : option bool :=
  if existsb (bytes_eqb s)
             (map str ["1"; "t"; "T"; "TRUE"; "true"; "True"]%string)
  then Some true
  else if existsb (bytes_eqb s)
                  (map str ["0"; "f"; "F"; "FALSE"; "false"; "False"]%string)
  then Some false
  else None.

(** [flag.Value.Set(value)] on the variable of a flag; [None] is the
    error of [ParseBool]. *)
Definition Set_ (v : flagVar) (value : bytes) (g : globals) : option globals :=
  let fl := values g in
  match v with
  | VerboseVar =>
      option_map (fun b => mkGlobals b fl) (ParseBool value)
  | IndexVar =>
      option_map (fun b => mkGlobals (verbose g)
                                     (mkFlags b (searchQuery fl) (directory fl)))
                 (ParseBool value)
  | SearchQueryVar =>
      Some (mkGlobals (verbose g) (mkFlags (index fl) value (directory fl)))
  | DirectoryVar =>
      Some (mkGlobals (verbose g) (mkFlags (index fl) (searchQuery fl) value))
  end.

(** The loop of [parseOne] that looks for an equals sign from the second
    byte of the name on: the name before it and the value after it. *)
Definition cutValue (name : bytes) : bytes * option bytes :=
  match name with
  | [] => (name, None)
  | c :: name' =>
      match IndexByte name' Equals with
      | Some i => (c :: firstn i name', Some (skipn (i + 1) name'))
      | None => (name, None)
      end
  end.

(** [f.parseOne()]: whether a flag was seen, the error, the variables and
    the arguments that are left. *)
Definition parseOne (g : globals) (args : list bytes)
  : bool * option flagError * globals * list bytes :=
  match args with
  | [] => (false, None, g, args)
  | s :: args' =>
      match s with
      | c0 :: c1 :: _ =>
          if negb (beq c0 Minus) then (false, None, g, args)
          else
            let numMinuses := if beq c1 Minus then 2 else 1 in
            if beq c1 Minus && (length s =? 2)
            then (false, None, g, args') (* two minus signs terminate the flags *)
            else
              let name := skipn numMinuses s in
              match name with
              | [] => (false, Some (BadFlagSyntax s), g, args)
              | n0 :: _ =>
                  if beq n0 Minus || beq n0 Equals
                  then (false, Some (BadFlagSyntax s), g, args)
                  else
                    (* it's a flag. does it have an argument? *)
                    let (name, value) := cutValue name in
                    match formal name with
                    | None =>
                        if bytes_eqb name (str "help")
                           || bytes_eqb name (str "h")
                        then (false, Some ErrHelp, g, args')
                        else (false, Some (FlagNotDefined name), g, args')
                    | Some v =>
                        if IsBoolFlag v then
                          (* special case: doesn't need an arg *)
                          let value' :=
                            match value with
                            | Some value => value
                            | None => str "true"
                            end in
                          match Set_ v value' g with
                          | Some g' => (true, None, g', args')
                          | None =>
                              (false, Some (InvalidBoolean value' name), g,
                               args')
                          end
                        else
                          (* It must have a value, which might be the next
                             argument. *)
                          match value, args' with
                          | Some value, _ =>
                              match Set_ v value g with
                              | Some g' => (true, None, g', args')
                              | None =>
                                  (false, Some (InvalidValue value name), g,
                                   args')
                              end
                          | None, value :: args'' =>
                              (* value is the next arg *)
                              match Set_ v value g with
                              | Some g' => (true, None, g', args'')
                              | None =>
                                  (false, Some (InvalidValue value name), g,
                                   args'')
                              end
                          | None, [] =>
                              (false, Some (FlagNeedsArgument name), g, args')
                          end
                    end
              end
      | _ => (false, None, g, args)
      end
  end.

(** The loop of [f.Parse]: [parseOne] as long as it sees a flag; [n]
    bounds the iterations. *)
Fixpoint parseLoop (n : nat) (g : globals) (args : list bytes)
  : globals * list bytes * option flagError :=
  match n with
  | 0 => (g, args, None)
  | S n' =>
      let '(seen, err, g', args') := parseOne g args in
      if seen then parseLoop n' g' args' else (g', args', err)
  end.

(** The values of the variables before [flag.Parse()]. *)
Definition defaults : globals := mkGlobals false (mkFlags false [] []).

(** [flag.Parse()] on [os.Args[1:]]: the variables, the arguments left
    and the error on which the program exits. *)
Definition Parse (args : list bytes) : globals * list bytes * option flagError :=
  parseLoop (S (length args)) defaults args.

(** How the process ends. *)
Inductive exit : Type :=
| UsageError (e : flagError)       (* flag.Parse exits *)
| Ran (r : mainResult).

(** [init] and then [main]. *)
Definition program (Join : bytes -> bytes -> bytes) (args : list bytes)
                   (tree : node) (disk : diskState) (indexCsv : option bytes)
  : exit * option bytes :=
  match Parse args with
  | (_, _, Some e) => (UsageError e, indexCsv)
  | (g, _, None) =>
      let (r, indexCsv') := main Join (values g) tree disk indexCsv in
      (Ran r, indexCsv')
  end.

(** The spellings of a flag on the command line: either name, after one
    or two minus signs. *)
Definition spellings (short long : bytes) : list bytes :=
  [ Minus :: short; Minus :: Minus :: short;
    Minus :: long; Minus :: Minus :: long ].

(* ================================================================= *)
(** ** More properties *)

(** A text with every carriage return that stands right before a newline
    removed. *)
Fixpoint dropCRLF (s : bytes) : bytes :=
  match s with
  | c :: s' =>
      match s' with
      | d :: _ => if beq c CR && beq d NL then dropCRLF s'
                  else c :: dropCRLF s'
      | [] => [c]
      end
  | [] => []
  end.

(** The row of a record as the reader gives it back. *)
Definition loaded (fileInfo : FileInfo) : list bytes := map dropCRLF (row fileInfo).

(** [reaches Join path info path' info']: the walk started at [path] on
    [info] can come to [info'] under the path [path'], through
    directories that the exclusion rule keeps. *)
Inductive reaches (Join : bytes -> bytes -> bytes)
  : bytes -> node -> bytes -> node -> Prop :=
| reaches_here (path : bytes) (info : node) :
    HasPrefix (infoName info) (str ".git") = false ->
    reaches Join path info path info
| reaches_below (path name : bytes) (entries : list node) (entry : node)
                (path' : bytes) (info' : node) :
    HasPrefix name (str ".git") = false ->
    In entry entries ->
    reaches Join (Join path (infoName entry)) entry path' info' ->
    reaches Join path (Dir name entries) path' info'.

(* ================================================================= *)
(** ** Bytes and strings: lemmas *)

Lemma beq_eq (a b : ascii) : beq a b = true <-> a = b.
Proof. apply Ascii.eqb_eq. Qed.

Lemma beq_neq (a b : ascii) : beq a b = false <-> a <> b.
Proof. apply Ascii.eqb_neq. Qed.

Lemma beq_refl (a : ascii) : beq a a = true.
Proof. apply beq_eq. reflexivity. Qed.

Lemma HasPrefix_spec (s prefix : bytes) :
  HasPrefix s prefix = true <-> exists rest, s = prefix ++ rest.
Proof.
  revert s. induction prefix as [| p prefix IH]; intros s; simpl.
  - split; [intros _; exists s; reflexivity | reflexivity].
  - destruct s as [| c s].
    + split; [discriminate | intros [rest H]; discriminate].
    + rewrite andb_true_iff, beq_eq, IH. split.
      * intros [-> [rest ->]]. exists rest. reflexivity.
      * intros [rest H]. injection H as -> ->. split; [reflexivity | eauto].
Qed.

Lemma HasPrefix_excluded (name : bytes) :
  HasPrefix name (str ".git") = true <-> excluded name.
Proof. apply HasPrefix_spec. Qed.

Lemma Index_Some (s substr : bytes) (i : nat) :
  Index s substr = Some i ->
  exists pre post, s = pre ++ substr ++ post /\ length pre = i.
Proof.
  revert i. induction s as [| c s IH]; intros i; simpl.
  - destruct (HasPrefix [] substr) eqn:E; [| discriminate].
    intros [= <-]. apply HasPrefix_spec in E as [rest E].
    exists [], rest. split; [assumption | reflexivity].
  - destruct (HasPrefix (c :: s) substr) eqn:E.
    + intros [= <-]. apply HasPrefix_spec in E as [rest E].
      exists [], rest. split; [assumption | reflexivity].
    + destruct (Index s substr) as [j |]; [| discriminate].
      intros [= <-]. destruct (IH j eq_refl) as (pre & post & -> & <-).
      exists (c :: pre), post. split; reflexivity.
Qed.

Lemma Index_None (s substr : bytes) :
  Index s substr = None -> forall pre post, s <> pre ++ substr ++ post.
Proof.
  induction s as [| c s IH]; simpl.
  - destruct (HasPrefix [] substr) eqn:E; [discriminate |].
    intros _ pre post H. destruct pre; simpl in H.
    + assert (HasPrefix [] substr = true) by (apply HasPrefix_spec; eauto).
      congruence.
    + discriminate.
  - destruct (HasPrefix (c :: s) substr) eqn:E; [discriminate |].
    destruct (Index s substr) eqn:Ei; [discriminate |].
    intros _ pre post H. destruct pre as [| p pre]; simpl in H.
    + assert (HasPrefix (c :: s) substr = true)
        by (apply HasPrefix_spec; eauto).
      congruence.
    + injection H as _ H. exact (IH eq_refl pre post H).
Qed.

(** [strings.Contains] decides exact, contiguous containment. *)
Lemma Contains_spec (s query : bytes) :
  Contains s query = true <-> substring query s.
Proof.
  unfold Contains, substring. destruct (Index s query) as [i |] eqn:E.
  - apply Index_Some in E as (pre & post & E & _). split; eauto.
  - split; [discriminate |].
    intros (pre & post & H). exfalso. exact (Index_None _ _ E _ _ H).
Qed.

Lemma Contains_empty (s : bytes) : Contains s [] = true.
Proof. apply Contains_spec. exists [], s. reflexivity. Qed.

Lemma str_inj (a b : string) : str a = str b -> a = b.
Proof.
  unfold str. intros H.
  rewrite <- (string_of_list_ascii_of_string a),
          <- (string_of_list_ascii_of_string b), H.
  reflexivity.
Qed.

Lemma to_int_proper (i : Z) : Z.to_int i <> Decimal.Pos Decimal.Nil
                              /\ Z.to_int i <> Decimal.Neg Decimal.Nil.
Proof.
  destruct i as [| p | p]; simpl; split; try discriminate;
    intros [= H]; exact (DecimalPos.Unsigned.to_uint_nonnil p H).
Qed.

(** The decimal rendering of the size determines the size. *)
Lemma FormatInt_inj (i j : Z) : FormatInt i = FormatInt j -> i = j.
Proof.
  unfold FormatInt. intros H. apply str_inj in H.
  apply DecimalZ.to_int_inj.
  destruct (to_int_proper i) as [Hi1 Hi2], (to_int_proper j) as [Hj1 Hj2].
  assert (Hi := NilZero.isi _ Hi1 Hi2).
  assert (Hj := NilZero.isi _ Hj1 Hj2).
  congruence.
Qed.

(* ================================================================= *)
(** ** The reader: general facts *)

Module CsvFacts.
Import Csv.

(** A record read without error has at least one field. *)
Lemma parse_some_field (n : nat) :
  forall line rest cur fields,
    (forall d r, parseField n line rest fields = (d, None, r) -> d <> [])
    /\ (forall d r, parseQuoted n line rest cur fields = (d, None, r) -> d <> []).
Proof.
  induction n as [| n IH]; intros line rest cur fields.
  - split; intros d r H; discriminate H.
  - split; intros d r; simpl.
    + destruct (quoted line) as [line' |].
      * apply (IH line' rest [] fields).
      * destruct (IndexByte _ QUOTE); [discriminate |].
        destruct (IndexByte line Comma) as [i |].
        -- apply (IH (skipn (i + 1) line) rest [] _).
        -- intros [= <- _]. destruct fields; discriminate.
    + destruct (IndexByte line QUOTE) as [i |].
      * destruct (skipn (i + 1) line) as [| c line'].
        -- intros [= <- _]. destruct fields; discriminate.
        -- destruct (beq c QUOTE); [apply (IH line' rest _ fields) |].
           destruct (beq c Comma); [apply (IH line' rest [] _) |].
           destruct (_ =? _); [| discriminate].
           intros [= <- _]. destruct fields; discriminate.
      * destruct line as [| c line']; [discriminate |].
        destruct (readLine rest) as [[l r'] e].
        apply (IH l r' _ fields).
Qed.

Lemma readRecord_some_field (input : bytes) (fpr : nat) d rest fpr' :
  readRecord input fpr = (d, None, rest, fpr') -> d <> [].
Proof.
  unfold readRecord.
  destruct (skipEmpty _ input) as [[line r] [e |]]; [discriminate |].
  destruct (parseField _ line r []) as [[dst err] r'] eqn:E.
  destruct (0 <? fpr).
  - destruct err; [discriminate |].
    destruct (negb _); [discriminate |].
    intros [= <- _ _]. exact (proj1 (parse_some_field _ _ _ [] _) _ _ E).
  - intros [= <- -> _ _]. exact (proj1 (parse_some_field _ _ _ [] _) _ _ E).
Qed.

Lemma readRecords_some_field (n : nat) :
  forall input fpr records out err,
    Forall (fun r => r <> []) records ->
    readRecords n input fpr records = (out, err) ->
    Forall (fun r => r <> []) out.
Proof.
  induction n as [| n IH]; intros input fpr records out err Hrec; simpl.
  - intros [= <- _]. constructor.
  - destruct (readRecord input fpr) as [[[d e] rest] fpr'] eqn:E.
    destruct e as [e |].
    + destruct e; intros [= <- _]; auto.
    + apply IH. apply Forall_app. split; [assumption |].
      constructor; [| constructor]. eapply readRecord_some_field, E.
Qed.

(** Every record [ReadAll] returns has a first field. *)
Lemma ReadAll_some_field (input : bytes) :
  Forall (fun r => r <> []) (fst (ReadAll input)).
Proof.
  destruct (ReadAll input) as [out err] eqn:E.
  eapply readRecords_some_field; [apply Forall_nil | exact E].
Qed.

(** [ReadAll] returns no record together with an error. *)
Lemma readRecords_error (n : nat) :
  forall input fpr records out e,
    readRecords n input fpr records = (out, Some e) -> out = [].
Proof.
  induction n as [| n IH]; intros input fpr records out e; simpl.
  - intros [= <- _]. reflexivity.
  - destruct (readRecord input fpr) as [[[d err] rest] fpr'].
    destruct err as [err |]; [| apply IH].
    destruct err; intros [= <- _]; reflexivity || discriminate.
Qed.

Lemma ReadAll_error (input : bytes) out e :
  ReadAll input = (out, Some e) -> out = [].
Proof. apply readRecords_error. Qed.

(** *** The step budget is never exhausted *)

Lemma length_removelast {A} (l : list A) : length (removelast l) <= length l.
Proof.
  induction l as [| x l IH]; [simpl; lia |].
  destruct l; simpl in *; lia.
Qed.

Lemma length_dropCR (line : bytes) : length (dropCR line) <= length line.
Proof.
  unfold dropCR. destruct (rev line) as [| c l]; [lia |].
  destruct (beq c CR); [apply length_removelast | lia].
Qed.

Lemma length_normalize_le (line : bytes) : length (normalize line) <= length line.
Proof.
  unfold normalize. destruct (rev line) as [| n [| r l]] eqn:E; try lia.
  destruct (beq r CR && beq n NL); [| lia].
  assert (H : length line = S (S (length l))).
  { rewrite <- (rev_involutive line), E, length_rev. reflexivity. }
  rewrite length_app. simpl.
  destruct line as [| x [| y line]]; try (simpl in H; lia).
  assert (H1 := length_removelast (removelast (x :: y :: line))).
  assert (H2 : length (removelast (x :: y :: line)) = S (length line)).
  { clear. revert x y. induction line as [| z line IH]; intros x y;
      [reflexivity |].
    change (removelast (x :: y :: z :: line))
      with (x :: removelast (y :: z :: line)).
    cbn [length]. rewrite IH. reflexivity. }
  assert (H3 : length (removelast (removelast (x :: y :: line)))
               = length line).
  { revert H2. generalize (removelast (x :: y :: line)). clear.
    intros l Hl. destruct (exists_last (l := l)) as (l' & a & ->).
    - intros ->. discriminate Hl.
    - rewrite removelast_last. rewrite length_app in Hl. simpl in Hl. lia. }
  rewrite H3. simpl. lia.
Qed.

Lemma length_ReadSlice (input : bytes) :
  length (fst (ReadSlice input)) + length (snd (ReadSlice input))
  = length input.
Proof.
  induction input as [| c input IH]; [reflexivity |]. simpl.
  destruct (beq c NL); [reflexivity |].
  destruct (ReadSlice input) as [line rest]. simpl in *. lia.
Qed.

Lemma ReadSlice_takes (c : ascii) (input : bytes) :
  length (snd (ReadSlice (c :: input))) <= length input.
Proof.
  simpl. destruct (beq c NL); [simpl; lia |].
  assert (H := length_ReadSlice input).
  destruct (ReadSlice input) as [line rest]. simpl in *. lia.
Qed.

(** A line and what is left after it are no longer than the input, and
    the input left is shorter unless the end was met. *)
Lemma readLine_shrinks (input line rest : bytes) (eof : bool) :
  readLine input = (line, rest, eof) ->
  length line + length rest <= length input
  /\ (eof = false -> length rest < length input).
Proof.
  unfold readLine. destruct input as [| c input].
  - intros [= <- <- <-]. split; [simpl; lia | discriminate].
  - assert (H1 := length_ReadSlice (c :: input)).
    assert (H2 := ReadSlice_takes c input).
    destruct (ReadSlice (c :: input)) as [l r]. cbn [fst snd] in *.
    intros [= <- <- <-].
    assert (H3 := length_normalize_le
                    (if lengthNL l =? 0 then dropCR l else l)).
    assert (H4 := length_dropCR l).
    split; [| intros _; simpl; lia].
    destruct (lengthNL l =? 0); lia.
Qed.

Lemma skipEmpty_steps (n : nat) :
  forall input line rest err,
    length input < n ->
    skipEmpty n input = (line, rest, err) ->
    err <> Some ErrSteps
    /\ length line + length rest <= length input
    /\ (err = None -> length rest < length input).
Proof.
  induction n as [| n IH]; intros input line rest err Hn; [lia |].
  cbn [skipEmpty].
  destruct (readLine input) as [[l r] eof] eqn:E.
  apply readLine_shrinks in E as [E1 E2].
  destruct eof.
  - intros [= <- <- <-]. repeat split; [discriminate | simpl; lia | discriminate].
  - specialize (E2 eq_refl). destruct (length l =? lengthNL l).
    + intros H. apply IH in H as (H1 & H2 & H3); [| lia].
      repeat split; [exact H1 | lia | intros E; specialize (H3 E); lia].
    + intros [= <- <- <-]. repeat split; [discriminate | lia | lia].
Qed.

Lemma length_skipn_le {A} (k : nat) (l : list A) : length (skipn k l) <= length l.
Proof. rewrite length_skipn. lia. Qed.

Lemma IndexByte_bound (s : bytes) (x : ascii) (i : nat) :
  IndexByte s x = Some i -> i < length s.
Proof.
  revert i. induction s as [| c s IH]; intros i; simpl; [discriminate |].
  destruct (beq c x); [intros [= <-]; lia |].
  destruct (IndexByte s x) as [j |]; [| discriminate].
  intros [= <-]. specialize (IH j eq_refl). lia.
Qed.

Lemma quoted_length (line line' : bytes) :
  quoted line = Some line' -> length line = S (length line').
Proof.
  destruct line as [| c line]; [discriminate |]. simpl.
  destruct (beq c QUOTE); [intros [= ->]; reflexivity | discriminate].
Qed.

Lemma parse_steps (n : nat) :
  forall line rest cur fields,
    length line + length rest < n ->
    (forall d e r, parseField n line rest fields = (d, e, r) ->
                   e <> Some ErrSteps /\ length r <= length rest)
    /\ (forall d e r, parseQuoted n line rest cur fields = (d, e, r) ->
                      e <> Some ErrSteps /\ length r <= length rest).
Proof.
  induction n as [| n IH]; intros line rest cur fields Hn; [lia |].
  split; intros d e r.
  - cbn [parseField]. destruct (quoted line) as [line' |] eqn:Eq.
    + apply quoted_length in Eq.
      apply (proj2 (IH line' rest [] fields ltac:(lia))).
    + destruct (IndexByte _ QUOTE).
      * intros [= <- <- <-]. split; [discriminate | lia].
      * destruct (IndexByte line Comma) as [i |] eqn:Ei.
        -- apply IndexByte_bound in Ei.
           apply (proj1 (IH (skipn (i + 1) line) rest [] _
                            ltac:(rewrite length_skipn; lia))).
        -- intros [= <- <- <-]. split; [discriminate | lia].
  - cbn [parseQuoted]. destruct (IndexByte line QUOTE) as [i |] eqn:Ei.
    + apply IndexByte_bound in Ei.
      assert (Hs : length (skipn (i + 1) line) < length line)
        by (rewrite length_skipn; lia).
      destruct (skipn (i + 1) line) as [| c line'].
      * intros [= <- <- <-]. split; [discriminate | lia].
      * cbn [length] in Hs. destruct (beq c QUOTE).
        -- apply (proj2 (IH line' rest _ fields ltac:(lia))).
        -- destruct (beq c Comma).
           ++ apply (proj1 (IH line' rest [] _ ltac:(lia))).
           ++ destruct (_ =? _); intros [= <- <- <-];
                (split; [discriminate | lia]).
    + destruct line as [| c line'].
      * intros [= <- <- <-]. split; [discriminate | lia].
      * destruct (readLine rest) as [[l r'] eof] eqn:El.
        apply readLine_shrinks in El as [El _]. cbn [length] in Hn.
        intros H.
        apply (proj2 (IH l r' (cur ++ c :: line') fields ltac:(lia))) in H.
        destruct H as [H1 H2]. split; [exact H1 | lia].
Qed.

Lemma readRecord_steps (input : bytes) (fpr : nat) d e rest fpr' :
  readRecord input fpr = (d, e, rest, fpr') ->
  e <> Some ErrSteps /\ (e = None -> length rest < length input).
Proof.
  unfold readRecord.
  destruct (skipEmpty _ input) as [[line r] err] eqn:Es.
  apply skipEmpty_steps in Es as (Hs1 & Hs2 & Hs3); [| lia].
  destruct err as [err |].
  - intros [= <- <- <- <-]. split; [exact Hs1 | discriminate].
  - specialize (Hs3 eq_refl).
    destruct (parseField _ line r []) as [[dst perr] r'] eqn:Ep.
    apply (proj1 (parse_steps (S (length line + length r)) line r [] []
                              (Nat.lt_succ_diag_r _))) in Ep as [Hp1 Hp2].
    destruct (0 <? fpr).
    + destruct perr as [perr |].
      * intros [= <- <- <- <-]. split; [exact Hp1 | discriminate].
      * destruct (negb _); intros [= <- <- <- <-];
          (split; [discriminate | intros _; lia]).
    + intros [= <- <- <- <-]. split; [exact Hp1 | intros _; lia].
Qed.

Lemma readRecords_steps (n : nat) :
  forall input fpr records out err,
    length input < n ->
    readRecords n input fpr records = (out, err) ->
    err <> Some ErrSteps.
Proof.
  induction n as [| n IH]; intros input fpr records out err Hn; [lia |].
  cbn [readRecords].
  destruct (readRecord input fpr) as [[[d e] rest] fpr'] eqn:E.
  apply readRecord_steps in E as [E1 E2].
  destruct e as [e |].
  - destruct e; intros [= <- <-]; discriminate || congruence.
  - apply IH. specialize (E2 eq_refl). lia.
Qed.

(** [ReadAll] always reads its input to the end or to an error of the
    reader. *)
Lemma ReadAll_steps (input : bytes) : snd (ReadAll input) <> Some ErrSteps.
Proof.
  destruct (ReadAll input) as [out err] eqn:E.
  apply readRecords_steps in E; [exact E | lia].
Qed.

End CsvFacts.

(* ================================================================= *)
(** ** search *)

Lemma searchLoop_filter (lines : list (list bytes)) (query : bytes) :
  searchLoop lines query = filter (matches query) lines.
Proof.
  induction lines as [| [| name line] lines IH]; simpl; auto.
  destruct (Contains name query); rewrite IH; reflexivity.
Qed.

Lemma filter_all {A} (f : A -> bool) (l : list A) :
  Forall (fun x => f x = true) l -> filter f l = l.
Proof.
  induction 1 as [| x l Hx _ IH]; simpl; [reflexivity |].
  rewrite Hx, IH. reflexivity.
Qed.

(** With the reader of the program, a read failure is never what [search]
    reports: an error comes with no line, and the check of the lines
    comes first. *)
Lemma search_never_read_error (indexCsv : option bytes) (query : bytes) e :
  search indexCsv query <> IndexReadError e.
Proof.
  unfold search, searchLines. destruct indexCsv as [file |]; [| discriminate].
  destruct (Csv.ReadAll file) as [lines [err |]] eqn:E.
  - rewrite (CsvFacts.ReadAll_error _ _ _ E). discriminate.
  - destruct (length lines =? 0); discriminate.
Qed.

(** C5.  For every index table that loads as a header and rows, and every
    query, [search] prints exactly the rows whose name field contains the
    query as a contiguous run of bytes, compared byte by byte (so with
    the case of letters), in the order of the rows; with the empty query
    it prints every row. *)
Theorem search_prints_substring_matches
    (file query : bytes) (hdr : list bytes) (rows : list (list bytes)) :
  Csv.ReadAll file = (hdr :: rows, None) ->
  exists out,
    search (Some file) query = Printed out
    /\ out = filter (matches query) rows
    /\ (forall line,
           In line out <->
           In line rows /\ exists name more,
                             line = name :: more /\ substring query name)
    /\ (query = [] -> out = rows).
Proof.
  intros E. exists (filter (matches query) rows).
  assert (Hne := CsvFacts.ReadAll_some_field file). rewrite E in Hne.
  apply Forall_inv_tail in Hne.
  unfold search, searchLines. rewrite E. simpl.
  rewrite searchLoop_filter.
  split; [reflexivity |]. split; [reflexivity |]. split.
  - intros line. rewrite filter_In. split.
    + intros [Hin Hm]. split; [exact Hin |].
      destruct line as [| name more]; [discriminate Hm |].
      exists name, more. split; [reflexivity |]. apply Contains_spec, Hm.
    + intros [Hin (name & more & -> & Hsub)].
      split; [exact Hin |]. apply Contains_spec, Hsub.
  - intros ->. apply filter_all. eapply Forall_impl; [| exact Hne].
    intros [| name more] Hl; [congruence | apply Contains_empty].
Qed.

Lemma search_prints_substring_matches_witness :
  exists out,
    search (Some (table [ mkFileInfo (str "user1.json") 16 Sniff.octet_stream
                                     (str "data/user1.json");
                          mkFileInfo (str "notes.txt") 3 Sniff.text_plain
                                     (str "data/notes.txt") ]))
           (str "json") = Printed out
    /\ out = [ [str "user1.json"; str "16"; Sniff.octet_stream;
                str "data/user1.json"] ].
Proof.
  destruct (search_prints_substring_matches
              (table [ mkFileInfo (str "user1.json") 16 Sniff.octet_stream
                                  (str "data/user1.json");
                       mkFileInfo (str "notes.txt") 3 Sniff.text_plain
                                  (str "data/notes.txt") ])
              (str "json") header
              [ [str "user1.json"; str "16"; Sniff.octet_stream;
                 str "data/user1.json"];
                [str "notes.txt"; str "3"; Sniff.text_plain;
                 str "data/notes.txt"] ]
              eq_refl) as (out & Hs & Hout & _).
  exists out. split; [exact Hs | exact Hout].
Defined.

(** The comparison is on bytes: letters match in their own case only. *)
Example search_is_case_sensitive :
  search (Some (table [ mkFileInfo (str "user1.json") 16 Sniff.octet_stream
                                   (str "data/user1.json") ]))
         (str "JSON")
  = Printed [].
Proof. vm_compute. reflexivity. Qed.

Lemma search_warns_iff (file query : bytes) :
  search (Some file) query = EmptyIndexWarning <-> fst (Csv.ReadAll file) = [].
Proof.
  unfold search, searchLines.
  destruct (Csv.ReadAll file) as [[| line lines] err]; simpl.
  - tauto.
  - split; [destruct err |]; discriminate.
Qed.

(** C4, against the claim.  The table that holds the header row and
    nothing else is searched without failure and without match, but no
    warning is given. *)
Lemma header_only_table_gives_no_warning :
  search (Some (Csv.Write header)) (str "json") = Printed []
  /\ search (Some (Csv.Write header)) (str "json") <> EmptyIndexWarning.
Proof. split; [reflexivity | discriminate]. Qed.

(** C4, amended.  For every table that holds the header row and no data
    row, [search] prints nothing and does not fail, and it gives no
    warning; the warning is given exactly when the load yields no row at
    all, not even a header. *)
Theorem search_header_only (file query : bytes) (hdr : list bytes) :
  Csv.ReadAll file = ([hdr], None) ->
  search (Some file) query = Printed []
  /\ search (Some file) query <> EmptyIndexWarning
  /\ (forall file',
         search (Some file') query = EmptyIndexWarning
         <-> fst (Csv.ReadAll file') = []).
Proof.
  intros E. assert (H : search (Some file) query = Printed []).
  { unfold search, searchLines. rewrite E. reflexivity. }
  split; [exact H |]. split; [rewrite H; discriminate |].
  intros file'. apply search_warns_iff.
Qed.

Lemma search_header_only_witness :
  Csv.ReadAll (table []) = ([header], None)
  /\ search (Some (table [])) (str "json") = Printed [].
Proof.
  split; [reflexivity |].
  exact (proj1 (search_header_only (table []) (str "json") header eq_refl)).
Defined.

(** C10.  [search] checks the lines for emptiness before it looks at the
    error of the reader: whatever the reader returned, no line means the
    empty-index warning, and a read failure is reported only with at
    least one line and the error.  So an index file whose load yields no
    row is answered by the warning and never by a read failure: the file
    of zero bytes and a file whose first row is malformed among them. *)
Theorem search_checks_empty_before_error
    (lines : list (list bytes)) (err : option Csv.error) (query : bytes) :
  (lines = [] -> searchLines lines err query = EmptyIndexWarning)
  /\ (forall e, searchLines lines err query = IndexReadError e ->
                lines <> [] /\ err = Some e)
  /\ (forall file, fst (Csv.ReadAll file) = [] ->
                   search (Some file) query = EmptyIndexWarning)
  /\ search (Some []) query = EmptyIndexWarning
  /\ (Csv.ReadAll (str "a" ++ [QUOTE] ++ str "b,c" ++ [NL])
      = ([], Some Csv.ErrBareQuote)
      /\ search (Some (str "a" ++ [QUOTE] ++ str "b,c" ++ [NL])) query
         = EmptyIndexWarning).
Proof.
  split; [intros ->; reflexivity |].
  split.
  { intros e. unfold searchLines. destruct lines as [| line lines]; simpl.
    - discriminate.
    - destruct err as [e' |]; intros [= <-]. split; [discriminate | reflexivity]. }
  split; [intros file; apply search_warns_iff |].
  split; [reflexivity |]. split; reflexivity.
Qed.

(* ================================================================= *)
(** ** The walk *)

(** Induction on trees, with the hypothesis on every entry of a
    directory. *)
Lemma node_ind' (P : node -> Prop)
    (HFile : forall name size c, P (File name size c))
    (HDir : forall name entries, Forall P entries -> P (Dir name entries))
    (HDirErr : forall name, P (DirErr name))
    (HGone : forall name, P (Gone name)) :
  forall info, P info.
Proof.
  fix IH 1. intros [name size c | name entries | name | name].
  - apply HFile.
  - apply HDir. induction entries as [| entry entries IHl].
    + constructor.
    + constructor; [apply IH | exact IHl].
  - apply HDirErr.
  - apply HGone.
Qed.

Section WalkFacts.

Variable Join : bytes -> bytes -> bytes.

Local Opaque HasPrefix Sniff.DetectContentType.

Lemma walk_Dir (path name : bytes) (names : list node) (files : list FileInfo) :
  walk Join path (Dir name names) files
  = if HasPrefix name (str ".git") then (files, Some SkipDir)
    else walkLoop Join path names files.
Proof.
  cbn [walk walkFn infoName IsDir].
  destruct (HasPrefix name (str ".git")); [reflexivity |].
  cbn [negb]. revert files.
  induction names as [| entry names IH]; intros files.
  - reflexivity.
  - cbn [walkLoop].
    destruct entry;
      try (destruct (walk Join _ _ files) as [files' [e |]];
           [destruct (_ || _) |]);
      rewrite ?IH; reflexivity.
Qed.

Lemma skipn_repeat {A} (x : A) (m n : nat) :
  skipn n (repeat x m) = repeat x (m - n).
Proof.
  revert n. induction m as [| m IH]; intros [| n]; simpl; auto.
Qed.

Lemma firstn_min_length {A} (n : nat) (l : list A) :
  firstn (Nat.min n (length l)) l = firstn n l.
Proof.
  destruct (Nat.le_ge_cases n (length l)) as [H | H].
  - rewrite Nat.min_l by assumption. reflexivity.
  - rewrite Nat.min_r by assumption.
    rewrite !firstn_all2 by lia. reflexivity.
Qed.

Lemma length_make (n : nat) : length (make n) = n.
Proof. apply repeat_length. Qed.

(** Reading a file that is not empty fills the start of the buffer and
    leaves the zero bytes after it. *)
Lemma Read_sample (path : bytes) (data : bytes) :
  data <> [] ->
  Read path (Holds data) (make 512)
  = (sample data, Nat.min 512 (length data), None).
Proof.
  intros Hne. unfold Read. rewrite length_make.
  change (512 =? 0) with false. cbv iota.
  destruct data as [| b data]; [congruence |].
  unfold sample. rewrite firstn_min_length. unfold make.
  rewrite skipn_repeat.
  replace (512 - Nat.min 512 (length (b :: data)))
    with (512 - length (b :: data)) by lia.
  reflexivity.
Qed.

(** What [walkFn] does with a file. *)
Lemma walkFn_File (path name : bytes) (size : Z) (c : content)
                  (files : list FileInfo) :
  walkFn path (File name size c) None files
  = if HasPrefix name (str ".git") then (files, None)
    else match c with
         | Unopenable => (files, Some (ErrOpen path))
         | Unreadable => (files, Some (ErrRead path))
         | Holds [] => (files, Some io_EOF)
         | Holds data =>
             (files ++ [ {| Name := name; Size := size;
                            Type_ := Sniff.DetectContentType (sample data);
                            Path := path |} ], None)
         end.
Proof.
  unfold walkFn. cbn [infoName IsDir negb infoSize].
  destruct (HasPrefix name (str ".git")); [reflexivity |].
  destruct c as [| | [| b data]]; cbn [Open].
  - reflexivity.
  - reflexivity.
  - unfold Read. rewrite length_make. reflexivity.
  - rewrite Read_sample by discriminate. reflexivity.
Qed.

Lemma walkLoop_well (path : bytes) (names : list node) :
  Forall (walksWell Join) names ->
  forallb sound names = true ->
  forall files,
    walkLoop Join path names files
    = (files ++ map recordOf
                 (flat_map (fun entry =>
                              visible Join (Join path (infoName entry)) entry)
                           names),
       None).
Proof.
  induction 1 as [| entry names Hentry _ IH]; intros Hs files.
  - simpl. rewrite app_nil_r. reflexivity.
  - simpl in Hs. apply andb_true_iff in Hs as [Hs1 Hs2].
    cbn [walkLoop flat_map]. rewrite map_app, app_assoc.
    rewrite <- (IH Hs2). clear IH.
    specialize (Hentry (Join path (infoName entry)) files Hs1).
    destruct entry as [name size c | name entries | name | name];
      try discriminate Hs1; rewrite Hentry; unfold verdict;
      cbn [IsDir andb negb orb]; [reflexivity |].
    destruct (HasPrefix _ _); reflexivity.
Qed.

Lemma walk_well (info : node) : walksWell Join info.
Proof.
  induction info as [name size c | name entries IH | name | name]
    using node_ind'; intros path files Hs; try discriminate Hs.
  - cbn [walk]. rewrite walkFn_File. unfold verdict.
    cbn [sound visible infoName IsDir andb] in *.
    destruct (HasPrefix name (str ".git")).
    + simpl. rewrite app_nil_r. reflexivity.
    + destruct c as [| | [| b data]]; try discriminate Hs. reflexivity.
  - rewrite walk_Dir. unfold verdict.
    cbn [sound visible infoName IsDir andb] in *.
    destruct (HasPrefix name (str ".git")).
    + simpl. rewrite app_nil_r. reflexivity.
    + apply walkLoop_well; assumption.
Qed.

Lemma isSkipDir_false (e : error) : e <> SkipDir -> isSkipDir e = false.
Proof. destruct e; congruence || reflexivity. Qed.

Lemma walkLoop_badly (path : bytes) (names : list node) :
  Forall (walksBadly Join) names ->
  forallb sound names = false ->
  forall files,
    exists files' e, walkLoop Join path names files = (files', Some e)
                     /\ e <> SkipDir.
Proof.
  induction 1 as [| entry names Hentry _ IH]; intros Hs files.
  - discriminate Hs.
  - simpl in Hs. cbn [walkLoop].
    destruct (sound entry) eqn:Hse.
    + simpl in Hs. rewrite (walk_well entry _ files Hse).
      destruct (IH Hs (files ++ map recordOf
                         (visible Join (Join path (infoName entry)) entry)))
        as (files' & e & Hw & He).
      exists files', e. split; [| exact He]. rewrite <- Hw.
      destruct entry as [name size c | name entries | name | name];
        try discriminate Hse; unfold verdict; cbn [IsDir andb negb orb];
        [reflexivity |].
      destruct (HasPrefix _ _); reflexivity.
    + destruct (Hentry (Join path (infoName entry)) files Hse)
        as (files' & e & Hw & He).
      exists files', e. split; [| exact He].
      destruct entry as [name size c | name entries | name | name].
      * rewrite Hw. reflexivity.
      * rewrite Hw, (isSkipDir_false _ He). reflexivity.
      * rewrite Hw, (isSkipDir_false _ He). reflexivity.
      * cbn [walk] in Hw. rewrite Hw, (isSkipDir_false _ He). reflexivity.
Qed.

Lemma walk_badly (info : node) : walksBadly Join info.
Proof.
  induction info as [name size c | name entries IH | name | name]
    using node_ind'; intros path files Hs.
  - cbn [walk]. rewrite walkFn_File. cbn [sound] in Hs.
    destruct (HasPrefix name (str ".git")); [discriminate Hs |].
    destruct c as [| | [| b data]]; try discriminate Hs;
      eexists _, _; (split; [reflexivity | discriminate]).
  - rewrite walk_Dir. cbn [sound] in Hs.
    destruct (HasPrefix name (str ".git")); [discriminate Hs |].
    apply walkLoop_badly; assumption.
  - eexists _, _. split; [reflexivity | discriminate].
  - eexists _, _. split; [reflexivity | discriminate].
Qed.

Lemma Walk_walk (root : bytes) (info : node) (files : list FileInfo) :
  Walk Join root info files
  = let (files', err) := walk Join root info files in
    match err with
    | Some SkipDir => (files', None)
    | _ => (files', err)
    end.
Proof. unfold Walk. destruct info; reflexivity. Qed.

(** The walk of a sound tree gathers the records of the visible files. *)
Lemma Walk_sound (root : bytes) (info : node) (files : list FileInfo) :
  sound info = true ->
  Walk Join root info files
  = (files ++ map recordOf (visible Join root info), None).
Proof.
  intros Hs. rewrite Walk_walk, (walk_well info root files Hs).
  unfold verdict. destruct (_ && _); reflexivity.
Qed.

(** The walk of any other tree fails. *)
Lemma Walk_unsound (root : bytes) (info : node) (files : list FileInfo) :
  sound info = false ->
  exists files' e, Walk Join root info files = (files', Some e)
                   /\ e <> SkipDir.
Proof.
  intros Hs. rewrite Walk_walk.
  destruct (walk_badly info root files Hs) as (files' & e & -> & He).
  exists files', e. split; [| exact He]. destruct e; congruence.
Qed.

Lemma Walk_ok (root : bytes) (info : node) (files : list FileInfo) :
  Walk Join root info [] = (files, None) ->
  sound info = true /\ files = map recordOf (visible Join root info).
Proof.
  intros H. destruct (sound info) eqn:Hs.
  - rewrite Walk_sound in H by assumption. simpl in H.
    injection H as H. subst files. auto.
  - destruct (Walk_unsound root info [] Hs) as (files' & e & Hw & _).
    congruence.
Qed.

Lemma broken_unsound (info : node) : broken info = true -> sound info = false.
Proof.
  induction info as [name size c | name entries IH | name | name]
    using node_ind'; cbn [broken sound]; try reflexivity.
  - destruct (HasPrefix name (str ".git")); [discriminate |].
    destruct c as [| | data]; simpl; reflexivity || discriminate.
  - destruct (HasPrefix name (str ".git")); [discriminate |].
    cbn [negb andb orb].
    induction IH as [| entry entries Hentry _ IHl]; simpl; [discriminate |].
    intros H. apply orb_true_iff in H as [H | H].
    + rewrite (Hentry H). reflexivity.
    + rewrite (IHl H). apply andb_false_r.
Qed.

Lemma visible_not_excluded (path : bytes) (info : node) :
  Forall (fun entry => HasPrefix (infoName (snd entry)) (str ".git") = false)
         (visible Join path info).
Proof.
  revert path.
  induction info as [name size c | name entries IH | name | name]
    using node_ind'; intros path; cbn [visible infoName];
    destruct (HasPrefix _ (str ".git")) eqn:E; try constructor.
  - exact E.
  - constructor.
  - clear E. induction IH as [| entry entries Hentry _ IHl]; simpl.
    + constructor.
    + apply Forall_app. split; [apply Hentry | exact IHl].
Qed.

(** What follows an entry on which the walk fails is never looked at. *)
Lemma walkLoop_stops (path : bytes) (pre post : list node) (entry : node) :
  sound entry = false ->
  forall files,
    walkLoop Join path (pre ++ entry :: post) files
    = walkLoop Join path (pre ++ [entry]) files.
Proof.
  intros Hs. induction pre as [| a pre IH]; intros files.
  - cbn [app walkLoop].
    destruct (walk_badly entry (Join path (infoName entry)) files Hs)
      as (files' & e & Hw & He).
    destruct entry as [name size c | name entries | name | name];
      try (rewrite Hw, ?(isSkipDir_false _ He); reflexivity).
    reflexivity.
  - cbn [app walkLoop].
    destruct a as [name size c | name entries | name | name];
      try (destruct (walk Join _ _ files) as [files' [e |]];
           [destruct (_ || _) |]);
      rewrite ?IH; reflexivity.
Qed.

(** A directory that cannot be listed stops the walk even when its name
    starts with [.git]: [walk] lists a directory before [walkFn] sees its
    name, and [walkFn] returns the error it is given. *)
Lemma walk_unlistable_git_directory (path : bytes) (files : list FileInfo) :
  walk Join path (DirErr (str ".git")) files
  = (files, Some (ErrReadDir path)).
Proof. reflexivity. Qed.

(** An empty file stops the walk: [Read] returns [io.EOF], which
    [walkFn] returns as any other error. *)
Lemma walk_empty_file (path name : bytes) (size : Z) (files : list FileInfo) :
  HasPrefix name (str ".git") = false ->
  walk Join path (File name size (Holds [])) files = (files, Some io_EOF).
Proof. intros H. cbn [walk]. rewrite walkFn_File, H. reflexivity. Qed.

(** C1, as the code has it.  A directory that holds a file of five bytes
    and an empty file is not indexed: the read of the empty file ends the
    walk with [io.EOF], the run is abandoned and no table is written. *)
Theorem empty_file_aborts_the_index :
  BuildIndex Join (str "docs")
             (Dir (str "docs")
                  [ File (str "a.txt") 5 (Holds (str "hello"));
                    File (str "empty.txt") 0 (Holds []) ])
             Writable None
  = (WalkFailed io_EOF, None).
Proof.
  unfold BuildIndex. rewrite Walk_walk, walk_Dir.
  change (HasPrefix (str "docs") (str ".git")) with false. cbv iota.
  cbn [walkLoop infoName].
  rewrite (walk_well (File (str "a.txt") 5 (Holds (str "hello"))))
    by reflexivity.
  unfold verdict. cbn [IsDir andb].
  rewrite walk_empty_file by reflexivity. reflexivity.
Qed.

Lemma walk_ok_sound (path : bytes) (info : node) (files files' : list FileInfo)
                    (err : option error) :
  walk Join path info files = (files', err) ->
  err = None \/ err = Some SkipDir ->
  sound info = true.
Proof.
  intros Hw Herr. destruct (sound info) eqn:Hs; [reflexivity |].
  destruct (walk_badly info path files Hs) as (f & e & Hw' & He).
  rewrite Hw in Hw'. injection Hw' as _ ->.
  destruct Herr as [H | H]; congruence.
Qed.

Lemma firstn_app_le {A} (k : nat) (l l' : list A) :
  k <= length l -> firstn k (l ++ l') = firstn k l.
Proof.
  intros H. rewrite firstn_app. replace (k - length l) with 0 by lia.
  simpl. apply app_nil_r.
Qed.

Lemma firstn_cut {A} (k : nat) (l l' : list A) :
  exists k', firstn k' (l ++ l') = firstn k l.
Proof.
  exists (Nat.min k (length l)).
  rewrite firstn_app_le by lia. apply firstn_min_length.
Qed.

(** The walk has appended nothing: the empty start of the visible
    files. *)
Ltac nothing_gathered :=
  exists 0; simpl; rewrite app_nil_r; reflexivity.

Lemma walkLoop_gathers (path : bytes) (names : list node) :
  Forall (gathers Join) names ->
  forall files,
    exists k,
      fst (walkLoop Join path names files)
      = files ++ map recordOf
                  (firstn k (flat_map
                               (fun entry =>
                                  visible Join (Join path (infoName entry)) entry)
                               names)).
Proof.
  induction 1 as [| entry names Hentry _ IH]; intros files.
  - nothing_gathered.
  - cbn [walkLoop flat_map].
    set (here := visible Join (Join path (infoName entry)) entry).
    set (after := flat_map _ names) in *.
    assert (Hstop : forall k1,
               exists k, files ++ map recordOf (firstn k1 here)
                         = files ++ map recordOf (firstn k (here ++ after))).
    { intros k1. destruct (firstn_cut k1 here after) as [k Hk].
      exists k. rewrite Hk. reflexivity. }
    assert (Hgo : forall files',
               files' = files ++ map recordOf here ->
               exists k, fst (walkLoop Join path names files')
                         = files ++ map recordOf (firstn k (here ++ after))).
    { intros files' ->. destruct (IH (files ++ map recordOf here)) as [k2 Hk2].
      exists (length here + k2). rewrite Hk2, firstn_app_2, map_app, app_assoc.
      reflexivity. }
    destruct (Hentry (Join path (infoName entry)) files) as [k1 Hk1].
    fold here in Hk1.
    destruct entry as [name size c | name entries | name | name].
    + destruct (walk Join _ _ files) as [f1 [e |]] eqn:E; simpl in Hk1.
      * cbn [IsDir negb orb]. subst f1. apply Hstop.
      * apply Hgo.
        rewrite (walk_well (File name size c) _ files
                           (walk_ok_sound _ _ _ _ _ E (or_introl eq_refl))) in E.
        injection E as <-. reflexivity.
    + destruct (walk Join _ _ files) as [f1 [e |]] eqn:E; simpl in Hk1.
      * cbn [IsDir negb orb]. destruct e; cbn [isSkipDir negb];
          try (subst f1; apply Hstop).
        apply Hgo.
        rewrite (walk_well (Dir name entries) _ files
                           (walk_ok_sound _ _ _ _ _ E (or_intror eq_refl))) in E.
        injection E as <-. reflexivity.
      * apply Hgo.
        rewrite (walk_well (Dir name entries) _ files
                           (walk_ok_sound _ _ _ _ _ E (or_introl eq_refl))) in E.
        injection E as <-. reflexivity.
    + cbn [walk walkFn IsDir isSkipDir negb orb fst].
      nothing_gathered.
    + cbn [walkFn isSkipDir negb fst].
      nothing_gathered.
Qed.

Lemma walk_gathers (info : node) : gathers Join info.
Proof.
  induction info as [name size c | name entries IH | name | name]
    using node_ind'; intros path files.
  - cbn [walk visible infoName]. rewrite walkFn_File.
    destruct (HasPrefix name (str ".git")).
    + nothing_gathered.
    + destruct c as [| | [| b data]]; try nothing_gathered.
      exists 1. reflexivity.
  - rewrite walk_Dir. cbn [visible infoName].
    destruct (HasPrefix name (str ".git")).
    + nothing_gathered.
    + apply walkLoop_gathers, IH.
  - nothing_gathered.
  - nothing_gathered.
Qed.

Lemma In_firstn {A} (x : A) (k : nat) (l : list A) :
  In x (firstn k l) -> In x l.
Proof.
  intros H. rewrite <- (firstn_skipn k l). apply in_or_app. left. exact H.
Qed.

(** C6.  In every run, whatever its outcome, the records gathered are
    those of the files the exclusion rule keeps, in traversal order, up
    to the point the walk has reached, and all of them in a run that
    succeeds: no record has a name that starts with [.git], and no other
    name is left out.  A directory with such a name is skipped whatever
    it holds, unreadable entries included, and the walk goes on with what
    follows it; a file with such a name is skipped alone. *)
Theorem walk_excludes_git_entries
    (root : bytes) (tree : node) (files : list FileInfo)
    (err : option error) :
  Walk Join root tree [] = (files, err) ->
  (forall f, In f files -> ~ excluded (Name f))
  /\ (exists k, files = map recordOf (firstn k (visible Join root tree)))
  /\ (err = None -> files = map recordOf (visible Join root tree))
  /\ (forall path name entries fs,
         excluded name ->
         walk Join path (Dir name entries) fs = (fs, Some SkipDir)
         /\ forall names,
             walkLoop Join path (Dir name entries :: names) fs
             = walkLoop Join path names fs)
  /\ (forall path name size c fs,
         excluded name ->
         walk Join path (File name size c) fs = (fs, None)
         /\ forall names,
             walkLoop Join path (File name size c :: names) fs
             = walkLoop Join path names fs).
Proof.
  intros H.
  assert (Hk : exists k, files = map recordOf (firstn k (visible Join root tree))).
  { destruct (walk_gathers tree root []) as [k Hk]. exists k.
    rewrite Walk_walk in H. destruct (walk Join root tree []) as [f e].
    simpl in Hk. subst f. destruct e as [[] |]; congruence. }
  split.
  { destruct Hk as [k ->]. intros f Hin.
    apply in_map_iff in Hin as ([path info] & <- & Hin).
    apply In_firstn in Hin.
    assert (Hv := visible_not_excluded root tree).
    rewrite Forall_forall in Hv. specialize (Hv _ Hin). simpl in Hv.
    intros Hex. apply HasPrefix_excluded in Hex. simpl in Hex. congruence. }
  split; [exact Hk |]. split.
  { intros ->. apply Walk_ok in H as [_ ->]. reflexivity. }
  split.
  - intros path name entries fs Hex. apply HasPrefix_excluded in Hex.
    assert (Hw : forall p, walk Join p (Dir name entries) fs
                           = (fs, Some SkipDir)).
    { intros p. rewrite walk_Dir, Hex. reflexivity. }
    split; [apply Hw |]. intros names. cbn [walkLoop]. rewrite Hw.
    reflexivity.
  - intros path name size c fs Hex. apply HasPrefix_excluded in Hex.
    assert (Hw : forall p, walk Join p (File name size c) fs = (fs, None)).
    { intros p. cbn [walk]. rewrite walkFn_File, Hex. reflexivity. }
    split; [apply Hw |]. intros names. cbn [walkLoop]. rewrite Hw.
    reflexivity.
Qed.

(** C7.  When the traversal reaches an entry that cannot be examined
    (lstat fails, a directory cannot be listed, a file cannot be opened
    or read), the run is abandoned with an error, as it is with any error
    the walk returns: the failing entry is not skipped, what follows it
    in its directory is not looked at, and [index.csv] is left as it was,
    so no table is written, not even a partial one. *)
Theorem traversal_error_aborts_the_index
    (root : bytes) (tree : node) (disk : diskState)
    (indexCsv : option bytes) :
  broken tree = true ->
  (exists e,
      e <> SkipDir
      /\ BuildIndex Join root tree disk indexCsv
         = (WalkFailed e, indexCsv)
      /\ (root <> [] ->
          forall query,
            main Join (mkFlags true query root) tree disk indexCsv
            = (IndexFailed (WalkFailed e), indexCsv)))
  /\ (forall tree' files e,
         Walk Join root tree' [] = (files, Some e) ->
         BuildIndex Join root tree' disk indexCsv
         = (WalkFailed e, indexCsv))
  /\ (forall path name pre entry post fs,
         broken entry = true ->
         ~ excluded name ->
         walk Join path (Dir name (pre ++ entry :: post)) fs
         = walk Join path (Dir name (pre ++ [entry])) fs).
Proof.
  intros Hb. split; [| split].
  2:{ intros tree' files e Hw. unfold BuildIndex. rewrite Hw. reflexivity. }
  - destruct (Walk_unsound root tree [] (broken_unsound _ Hb))
      as (files' & e & Hw & He).
    exists e. split; [exact He |].
    assert (HB : BuildIndex Join root tree disk indexCsv
                 = (WalkFailed e, indexCsv)).
    { unfold BuildIndex. rewrite Hw. reflexivity. }
    split; [exact HB |]. intros Hd query. unfold main.
    cbn [directory index searchQuery].
    destruct root as [| c d]; [congruence |].
    cbn [length Nat.eqb andb negb]. rewrite !andb_false_r.
    rewrite HB. reflexivity.
  - intros path name pre entry post fs Hbe Hex.
    rewrite !walk_Dir.
    destruct (HasPrefix name (str ".git")) eqn:E.
    + reflexivity.
    + apply walkLoop_stops, broken_unsound, Hbe.
Qed.

End WalkFacts.

(* ================================================================= *)
(** ** The detector *)

Module SniffFacts.
Import Sniff.

Lemma sigMatch_range (sig : sniffSig) (data : bytes) (fnws : nat) :
  sigMatch sig data fnws = [] \/ sigMatch sig data fnws = ctOf sig.
Proof.
  destruct sig; unfold sigMatch; cbn [ctOf];
    repeat match goal with
           | |- context [if ?c then _ else _] => destruct c
           end; auto.
Qed.

Lemma firstMatch_range (sigs : list sniffSig) (data : bytes) (fnws : nat) :
  In (firstMatch sigs data fnws) (octet_stream :: map ctOf sigs).
Proof.
  induction sigs as [| sig sigs IH]; cbn [firstMatch].
  - left. reflexivity.
  - destruct (sigMatch_range sig data fnws) as [E | E]; rewrite E.
    + destruct IH as [IH | IH]; [left | right; right]; assumption.
    + destruct (ctOf sig) eqn:Ec.
      * destruct IH as [IH | IH]; [left | right; right]; assumption.
      * right. left. exact Ec.
Qed.

(** The answer of the detector is one of the types of its table. *)
Lemma DetectContentType_range (data : bytes) :
  In (DetectContentType data) contentTypes.
Proof. apply firstMatch_range. Qed.

(** Whatever holds of every type of the table holds of the answer. *)
Lemma DetectContentType_all (P : bytes -> bool) (data : bytes) :
  forallb P contentTypes = true -> P (DetectContentType data) = true.
Proof.
  intros H. rewrite forallb_forall in H. apply H, DetectContentType_range.
Qed.

Lemma firstMatch_skip (sigs sigs' : list sniffSig) (data : bytes) (fnws : nat) :
  forallb (fun sig => match sigMatch sig data fnws with
                      | [] => true
                      | _ => false
                      end) sigs = true ->
  firstMatch (sigs ++ sigs') data fnws = firstMatch sigs' data fnws.
Proof.
  induction sigs as [| sig sigs IH]; simpl; [reflexivity |].
  destruct (sigMatch sig data fnws); [| discriminate]. exact IH.
Qed.

Lemma length_sample (data : bytes) : length (sample data) = 512.
Proof.
  unfold sample. rewrite length_app, length_firstn, repeat_length. lia.
Qed.

Lemma firstn_sample (data : bytes) : firstn sniffLen (sample data) = sample data.
Proof. apply firstn_all2. rewrite length_sample. reflexivity. Qed.

(** With no other signature matching, the answer is that of the text
    signature: text unless a binary byte follows the leading spaces. *)
Lemma DetectContentType_noMagic (data : bytes) :
  noMagic (sample data) = true ->
  DetectContentType (sample data)
  = if existsb isBinary (skipn (firstNonWS (sample data)) (sample data))
    then octet_stream else text_plain.
Proof.
  intros H. unfold DetectContentType. rewrite firstn_sample.
  unfold sniffSignatures. rewrite firstMatch_skip by exact H.
  cbn [firstMatch sigMatch].
  destruct (existsb isBinary _); reflexivity.
Qed.

Lemma firstNonWS_le (data : bytes) : firstNonWS data <= length data.
Proof.
  induction data as [| b data IH]; simpl; [lia |].
  destruct (isWS b); lia.
Qed.

Lemma firstNonWS_app_NUL (data more : bytes) :
  firstNonWS (data ++ NUL :: more) <= length data.
Proof.
  induction data as [| b data IH]; simpl; [lia |].
  destruct (isWS b); lia.
Qed.

Lemma existsb_skipn_app (f : ascii -> bool) (n : nat) (a : bytes)
                        (x : ascii) (b : bytes) :
  n <= length a -> f x = true -> existsb f (skipn n (a ++ x :: b)) = true.
Proof.
  intros Hn Hx. rewrite skipn_app. rewrite existsb_app.
  replace (n - length a) with 0 by lia. simpl. rewrite Hx.
  apply orb_true_r.
Qed.

(** The zero bytes that pad a short file are binary data for the text
    signature. *)
Lemma sample_short_binary (data : bytes) :
  length data < 512 ->
  existsb isBinary (skipn (firstNonWS (sample data)) (sample data)) = true.
Proof.
  intros Hlen. unfold sample.
  rewrite firstn_all2 by lia.
  destruct (512 - length data) as [| k] eqn:Ek; [lia |].
  cbn [repeat].
  apply existsb_skipn_app; [apply firstNonWS_app_NUL | reflexivity].
Qed.






End SniffFacts.

(* ================================================================= *)
(** ** The type of a file of plain text *)




(** Plain text of 512 bytes and more is given the text type. *)
Example long_text_file_is_text :
  walkFn (str "big.json")
         (File (str "big.json") 600 (Holds (repeat "a"%char 600))) None []
  = ([ mkFileInfo (str "big.json") 600 Sniff.text_plain (str "big.json") ],
     None).
Proof. vm_compute. reflexivity. Qed.

(* ================================================================= *)
(** ** The reader on what the writer wrote *)

Module ReaderSteps.
Import Csv.

(** *** Lines *)

Lemma rev_case {A} (l : list A) : l = [] \/ exists l' x, l = l' ++ [x].
Proof.
  induction l as [| x l _] using rev_ind; [left | right; eauto].
  reflexivity.
Qed.

Lemma rev_snoc2 {A} (l : list A) (x y : A) : rev (l ++ [x; y]) = y :: x :: rev l.
Proof. rewrite rev_app_distr. reflexivity. Qed.

Lemma normalize_snoc2 (l : bytes) (x y : ascii) :
  normalize (l ++ [x; y])
  = if beq x CR && beq y NL then l ++ [NL] else l ++ [x; y].
Proof.
  unfold normalize. rewrite rev_snoc2.
  destruct (beq x CR && beq y NL); [| reflexivity].
  change [x; y] with ([x] ++ [y]). rewrite app_assoc.
  rewrite !removelast_last. reflexivity.
Qed.

Lemma normalize_line (c : ascii) (l : bytes) :
  (l = [] -> c <> CR) ->
  normalize (c :: l ++ [NL]) = c :: normalize (l ++ [NL]).
Proof.
  intros Hc. destruct (rev_case l) as [-> | (l' & x & ->)].
  - change ([c] ++ [NL]) with ([] ++ [c; NL]).
    change (c :: [] ++ [NL]) with ([] ++ [c; NL]).
    rewrite normalize_snoc2.
    destruct (beq c CR) eqn:E; [| reflexivity].
    apply beq_eq in E. exfalso. exact (Hc eq_refl E).
  - rewrite <- !app_assoc. change ([x] ++ [NL]) with [x; NL].
    change (c :: l' ++ [x; NL]) with ((c :: l') ++ [x; NL]).
    rewrite !normalize_snoc2. destruct (_ && _); reflexivity.
Qed.

Lemma normalize_nonempty (l : bytes) : normalize (l ++ [NL]) <> [].
Proof.
  destruct (rev_case l) as [-> | (l' & x & ->)].
  - discriminate.
  - rewrite <- app_assoc. change ([x] ++ [NL]) with [x; NL].
    rewrite normalize_snoc2.
    destruct (_ && _); intros H; apply app_eq_nil in H as [_ H];
      discriminate.
Qed.

Lemma length_normalize (l : bytes) : length l <= length (normalize (l ++ [NL])).
Proof.
  destruct (rev_case l) as [-> | (l' & x & ->)].
  - simpl. lia.
  - rewrite <- app_assoc. change ([x] ++ [NL]) with [x; NL].
    rewrite normalize_snoc2.
    destruct (_ && _); rewrite !length_app; simpl; lia.
Qed.

Lemma lengthNL_line (l : bytes) : lengthNL (l ++ [NL]) = 1.
Proof. unfold lengthNL. rewrite rev_app_distr. reflexivity. Qed.

Lemma ReadSlice_at (l r : bytes) :
  noNL l = true -> ReadSlice (l ++ NL :: r) = (l ++ [NL], r).
Proof.
  induction l as [| c l IH]; simpl; [reflexivity |].
  intros H. apply andb_true_iff in H as [Hc H].
  apply negb_true_iff in Hc. rewrite Hc, (IH H). reflexivity.
Qed.

Lemma split_at_NL (input : bytes) :
  In NL input -> exists l r, input = l ++ NL :: r /\ noNL l = true.
Proof.
  induction input as [| c input IH]; [intros [] |].
  destruct (beq c NL) eqn:E.
  - apply beq_eq in E as ->. intros _. exists [], input. auto.
  - intros [-> | Hin]; [rewrite beq_refl in E; discriminate |].
    destruct (IH Hin) as (l & r & -> & Hl).
    exists (c :: l), r. split; [reflexivity |]. simpl. rewrite E. exact Hl.
Qed.

(** The first line of an input that holds a line break. *)
Lemma readLine_at (l r : bytes) :
  noNL l = true ->
  readLine (l ++ NL :: r) = (normalize (l ++ [NL]), r, false).
Proof.
  intros H. unfold readLine.
  destruct (l ++ NL :: r) eqn:E; [destruct l; discriminate |].
  rewrite <- E, (ReadSlice_at _ _ H), lengthNL_line. reflexivity.
Qed.

(** A byte before the line stays before it, but for a carriage return
    right before the line break. *)
Lemma readLine_cons (c : ascii) (input : bytes) :
  c <> NL ->
  In NL input ->
  (c = CR -> hd NUL input <> NL) ->
  readLine (c :: input)
  = let '(line, rest, eof) := readLine input in (c :: line, rest, eof).
Proof.
  intros Hc Hin Hcr. destruct (split_at_NL _ Hin) as (l & r & -> & Hl).
  change (c :: l ++ NL :: r) with ((c :: l) ++ NL :: r).
  rewrite !readLine_at; [| exact Hl |].
  - simpl. rewrite normalize_line; [reflexivity |].
    intros -> E. exact (Hcr E eq_refl).
  - simpl. rewrite Hl. apply beq_neq in Hc. rewrite Hc. reflexivity.
Qed.

Lemma readLine_NL (input : bytes) : readLine (NL :: input) = ([NL], input, false).
Proof. exact (readLine_at [] input eq_refl). Qed.

Lemma readLine_nonempty (input : bytes) :
  In NL input -> fst (fst (readLine input)) <> [].
Proof.
  intros Hin. destruct (split_at_NL _ Hin) as (l & r & -> & Hl).
  rewrite readLine_at by exact Hl. apply normalize_nonempty.
Qed.

Lemma readLine_length (input : bytes) :
  In NL input ->
  length input
  <= S (length (fst (fst (readLine input))) + length (snd (fst (readLine input)))).
Proof.
  intros Hin. destruct (split_at_NL _ Hin) as (l & r & -> & Hl).
  rewrite readLine_at by exact Hl. simpl.
  assert (H := length_normalize l). rewrite length_app. simpl. lia.
Qed.

(** *** Searching a byte *)

Lemma lacks_cons (x c : ascii) (s : bytes) :
  lacks x (c :: s) = true <-> c <> x /\ lacks x s = true.
Proof.
  unfold lacks. simpl. rewrite negb_orb, andb_true_iff, negb_true_iff, beq_neq.
  reflexivity.
Qed.

Lemma lacks_app (x : ascii) (s t : bytes) :
  lacks x (s ++ t) = lacks x s && lacks x t.
Proof. unfold lacks. rewrite existsb_app, negb_orb. reflexivity. Qed.

Lemma IndexByte_lacks (x : ascii) (s : bytes) :
  lacks x s = true -> IndexByte s x = None.
Proof.
  induction s as [| c s IH]; [reflexivity |].
  intros H. apply lacks_cons in H as [Hc H]. simpl.
  apply beq_neq in Hc. rewrite Hc, (IH H). reflexivity.
Qed.

Lemma IndexByte_found (x : ascii) (s t : bytes) :
  lacks x s = true -> IndexByte (s ++ x :: t) x = Some (length s).
Proof.
  induction s as [| c s IH]; simpl.
  - rewrite beq_refl. reflexivity.
  - intros H. apply lacks_cons in H as [Hc H].
    apply beq_neq in Hc. rewrite Hc, (IH H). reflexivity.
Qed.

Lemma special_lacks (s : bytes) :
  existsb special s = false ->
  lacks NL s = true /\ lacks CR s = true
  /\ lacks QUOTE s = true /\ lacks Comma s = true.
Proof.
  unfold lacks. induction s as [| c s IH]; simpl; [auto |].
  intros H. apply orb_false_iff in H as [Hc H].
  destruct (IH H) as (H1 & H2 & H3 & H4).
  unfold special in Hc.
  repeat (apply orb_false_iff in Hc as [Hc ?]).
  rewrite !negb_orb, H1, H2, H3, H4.
  repeat match goal with E : beq c _ = false |- _ => rewrite E; clear E end.
  auto.
Qed.

Lemma noNL_lacks (s : bytes) : noNL s = lacks NL s.
Proof.
  unfold noNL, lacks. induction s as [| c s IH]; simpl; [reflexivity |].
  rewrite IH, negb_orb. reflexivity.
Qed.

(** *** One iteration of the loops *)

Lemma parseField_S (n : nat) (line rest : bytes) (fields : list bytes) :
  parseField (S n) line rest fields
  = match quoted line with
    | None =>
        let i := IndexByte line Comma in
        let field :=
          match i with
          | Some i => firstn i line
          | None => firstn (length line - lengthNL line) line
          end in
        match IndexByte field QUOTE with
        | Some _ => (fields, Some ErrBareQuote, rest)
        | None =>
            match i with
            | Some i =>
                parseField n (skipn (i + 1) line) rest (fields ++ [field])
            | None => (fields ++ [field], None, rest)
            end
        end
    | Some line' => parseQuoted n line' rest [] fields
    end.
Proof. reflexivity. Qed.

Lemma parseQuoted_S (n : nat) (line rest cur : bytes) (fields : list bytes) :
  parseQuoted (S n) line rest cur fields
  = match IndexByte line QUOTE with
    | Some i =>
        let cur := cur ++ firstn i line in
        let line := skipn (i + 1) line in
        match line with
        | c :: line' =>
            if beq c QUOTE then
              parseQuoted n line' rest (cur ++ [QUOTE]) fields
            else if beq c Comma then
              parseField n line' rest (fields ++ [cur])
            else if lengthNL line =? length line then
              (fields ++ [cur], None, rest)
            else (fields, Some ErrQuote, rest)
        | [] => (fields ++ [cur], None, rest)
        end
    | None =>
        match line with
        | _ :: _ =>
            let '(line', rest', _) := readLine rest in
            parseQuoted n line' rest' (cur ++ line) fields
        | [] => (fields, Some ErrQuote, rest)
        end
    end.
Proof. reflexivity. Qed.

(** A byte of a quoted field that is no quote joins the field with the
    bytes after it. *)
Lemma parseQuoted_absorb (n : nat) (c : ascii) (line rest cur : bytes)
                         (fields : list bytes) :
  c <> QUOTE ->
  line <> [] ->
  parseQuoted (S n) (c :: line) rest cur fields
  = parseQuoted (S n) line rest (cur ++ [c]) fields.
Proof.
  intros Hc Hl. rewrite !parseQuoted_S. cbn [IndexByte].
  apply beq_neq in Hc. rewrite Hc.
  destruct (IndexByte line QUOTE) as [i |]; cbn [option_map].
  - cbn [firstn skipn Nat.add].
    replace (cur ++ c :: firstn i line) with ((cur ++ [c]) ++ firstn i line)
      by (rewrite <- app_assoc; reflexivity).
    reflexivity.
  - destruct line as [| d line]; [congruence |].
    rewrite <- app_assoc. reflexivity.
Qed.

Lemma parseQuotedAt_byte (n : nat) (c : ascii) (input cur : bytes)
                         (fields : list bytes) :
  c <> QUOTE -> c <> NL ->
  In NL input ->
  (c = CR -> hd NUL input <> NL) ->
  parseQuotedAt (S n) (c :: input) cur fields
  = parseQuotedAt (S n) input (cur ++ [c]) fields.
Proof.
  intros Hq Hn Hin Hcr. unfold parseQuotedAt.
  rewrite readLine_cons by assumption.
  assert (Hne := readLine_nonempty _ Hin).
  destruct (readLine input) as [[line rest] eof]. simpl in Hne.
  apply parseQuoted_absorb; assumption.
Qed.

Lemma QUOTE_not_NL : QUOTE <> NL.
Proof. discriminate. Qed.

Lemma Comma_not_NL : Comma <> NL.
Proof. discriminate. Qed.

Lemma parseQuotedAt_quote (n : nat) (input cur : bytes) (fields : list bytes) :
  In NL input ->
  parseQuotedAt (S n) (QUOTE :: QUOTE :: input) cur fields
  = parseQuotedAt n input (cur ++ [QUOTE]) fields.
Proof.
  intros Hin. unfold parseQuotedAt.
  rewrite readLine_cons;
    [| exact QUOTE_not_NL | right; exact Hin | discriminate].
  rewrite readLine_cons; [| exact QUOTE_not_NL | exact Hin | discriminate].
  destruct (readLine input) as [[line rest] eof].
  rewrite parseQuoted_S. cbn [IndexByte]. rewrite beq_refl.
  cbn [firstn skipn Nat.add]. rewrite beq_refl, app_nil_r. reflexivity.
Qed.

Lemma parseQuotedAt_newline (n : nat) (input cur : bytes)
                            (fields : list bytes) :
  parseQuotedAt (S n) (NL :: input) cur fields
  = parseQuotedAt n input (cur ++ [NL]) fields.
Proof.
  unfold parseQuotedAt. rewrite readLine_NL, parseQuoted_S. reflexivity.
Qed.

Lemma parseQuotedAt_comma (n : nat) (input cur : bytes) (fields : list bytes) :
  In NL input ->
  parseQuotedAt (S n) (QUOTE :: Comma :: input) cur fields
  = parseFieldAt n input (fields ++ [cur]).
Proof.
  intros Hin. unfold parseQuotedAt, parseFieldAt.
  rewrite readLine_cons;
    [| exact QUOTE_not_NL | right; exact Hin | discriminate].
  rewrite readLine_cons; [| exact Comma_not_NL | exact Hin | discriminate].
  destruct (readLine input) as [[line rest] eof].
  rewrite parseQuoted_S. cbn [IndexByte]. rewrite beq_refl.
  cbn [firstn skipn Nat.add]. rewrite app_nil_r.
  change (beq Comma QUOTE) with false. rewrite beq_refl. reflexivity.
Qed.

Lemma parseQuotedAt_end (n : nat) (rest cur : bytes) (fields : list bytes) :
  parseQuotedAt (S n) (QUOTE :: NL :: rest) cur fields
  = (fields ++ [cur], None, rest).
Proof.
  unfold parseQuotedAt.
  rewrite (readLine_at [QUOTE] rest eq_refl
           : readLine (QUOTE :: NL :: rest) = ([QUOTE; NL], rest, false)).
  rewrite parseQuoted_S. cbn [IndexByte]. rewrite beq_refl.
  cbn [firstn skipn Nat.add]. rewrite app_nil_r. reflexivity.
Qed.

Lemma parseFieldAt_open (n : nat) (input : bytes) (fields : list bytes) :
  In NL input ->
  parseFieldAt (S n) (QUOTE :: input) fields
  = parseQuotedAt n input [] fields.
Proof.
  intros Hin. unfold parseQuotedAt, parseFieldAt.
  rewrite readLine_cons; [| exact QUOTE_not_NL | exact Hin | discriminate].
  destruct (readLine input) as [[line rest] eof].
  rewrite parseField_S. cbn [quoted]. rewrite beq_refl. reflexivity.
Qed.

Lemma readLine_app (s input : bytes) :
  lacks NL s = true -> lacks CR s = true ->
  In NL input ->
  readLine (s ++ input)
  = let '(line, rest, eof) := readLine input in (s ++ line, rest, eof).
Proof.
  induction s as [| c s IH]; intros Hn Hc Hin.
  - simpl. destruct (readLine input) as [[line rest] eof]. reflexivity.
  - apply lacks_cons in Hn as [Hn1 Hn2]. apply lacks_cons in Hc as [Hc1 Hc2].
    cbn [app]. rewrite readLine_cons.
    + rewrite (IH Hn2 Hc2 Hin).
      destruct (readLine input) as [[line rest] eof]. reflexivity.
    + exact Hn1.
    + apply in_or_app. right. exact Hin.
    + congruence.
Qed.

Lemma firstn_length_app {A} (s t : list A) : firstn (length s) (s ++ t) = s.
Proof.
  rewrite firstn_app, Nat.sub_diag, firstn_all. simpl. apply app_nil_r.
Qed.

Lemma skipn_length_app {A} (s : list A) (x : A) (t : list A) :
  skipn (length s + 1) (s ++ x :: t) = t.
Proof.
  rewrite skipn_app. rewrite skipn_all2 by lia.
  replace (length s + 1 - length s) with 1 by lia. reflexivity.
Qed.

Lemma quoted_plain (s t : bytes) (x : ascii) :
  lacks QUOTE s = true -> x <> QUOTE -> quoted (s ++ x :: t) = None.
Proof.
  intros Hs Hx. destruct s as [| c s]; simpl.
  - apply beq_neq in Hx. rewrite Hx. reflexivity.
  - apply lacks_cons in Hs as [Hc _]. apply beq_neq in Hc. rewrite Hc.
    reflexivity.
Qed.

Lemma normalize_plain (s : bytes) :
  lacks CR s = true -> normalize (s ++ [NL]) = s ++ [NL].
Proof.
  intros H. destruct (rev_case s) as [-> | (s' & x & ->)]; [reflexivity |].
  rewrite <- app_assoc. change ([x] ++ [NL]) with [x; NL].
  rewrite normalize_snoc2. rewrite lacks_app in H.
  apply andb_true_iff in H as [_ H]. apply lacks_cons in H as [H _].
  apply beq_neq in H. rewrite H. reflexivity.
Qed.

(** A field written as it is, before a comma. *)
Lemma parseFieldAt_plain_comma (n : nat) (field input : bytes)
                               (fields : list bytes) :
  existsb special field = false ->
  In NL input ->
  parseFieldAt (S n) (field ++ Comma :: input) fields
  = parseFieldAt n input (fields ++ [field]).
Proof.
  intros Hs Hin. apply special_lacks in Hs as (Hnl & Hcr & Hq & Hco).
  unfold parseFieldAt.
  change (field ++ Comma :: input) with (field ++ [Comma] ++ input).
  rewrite app_assoc, readLine_app; [| | | exact Hin].
  - destruct (readLine input) as [[line rest] eof].
    rewrite <- app_assoc. cbn [app].
    rewrite parseField_S, quoted_plain by (assumption || discriminate).
    cbv zeta. rewrite (IndexByte_found _ _ _ Hco).
    rewrite firstn_length_app, skipn_length_app, (IndexByte_lacks _ _ Hq).
    reflexivity.
  - rewrite lacks_app, Hnl. reflexivity.
  - rewrite lacks_app, Hcr. reflexivity.
Qed.

(** A field written as it is, before the end of the record. *)
Lemma parseFieldAt_plain_end (n : nat) (field rest : bytes)
                             (fields : list bytes) :
  existsb special field = false ->
  parseFieldAt (S n) (field ++ NL :: rest) fields
  = (fields ++ [field], None, rest).
Proof.
  intros Hs. apply special_lacks in Hs as (Hnl & Hcr & Hq & Hco).
  unfold parseFieldAt. rewrite readLine_at by (rewrite noNL_lacks; exact Hnl).
  rewrite normalize_plain by exact Hcr.
  rewrite parseField_S, quoted_plain by (assumption || discriminate).
  cbv zeta.
  assert (Hi : IndexByte (field ++ [NL]) Comma = None).
  { apply IndexByte_lacks. rewrite lacks_app, Hco. reflexivity. }
  rewrite Hi, lengthNL_line, length_app. cbn [length].
  replace (length field + 1 - 1) with (length field) by lia.
  rewrite firstn_length_app, (IndexByte_lacks _ _ Hq). reflexivity.
Qed.

(** *** A field *)

Lemma In_NL_body (field tail : bytes) :
  In NL tail -> In NL (escape field ++ QUOTE :: tail).
Proof. intros H. apply in_or_app. right. right. exact H. Qed.

Lemma hd_body (c : ascii) (field tail : bytes) :
  noCRLF (c :: field) = true ->
  c = CR -> hd NUL (escape field ++ QUOTE :: tail) <> NL.
Proof.
  intros H ->. destruct field as [| d field]; [discriminate |].
  cbn [noCRLF] in H. apply andb_true_iff in H as [H _].
  rewrite beq_refl in H. cbn [andb] in H. apply negb_true_iff in H.
  cbn [escape flat_map]. destruct (beq d QUOTE) eqn:E.
  - discriminate.
  - simpl. apply beq_neq. exact H.
Qed.

Lemma noCRLF_tail (c : ascii) (s : bytes) :
  noCRLF (c :: s) = true -> noCRLF s = true.
Proof.
  destruct s as [| d s]; [reflexivity |]. cbn [noCRLF].
  intros H. apply andb_true_iff in H as [_ H]. exact H.
Qed.

(** The body of a quoted field, up to its closing quote. *)
Lemma parseQuotedAt_body (field : bytes) :
  forall (cur : bytes) (k : nat) (tail : bytes) (fields : list bytes),
    noCRLF field = true ->
    In NL tail ->
    parseQuotedAt
      (length (filter (fun c => beq c QUOTE || beq c NL) field) + S k)
      (escape field ++ QUOTE :: tail) cur fields
    = parseQuotedAt (S k) (QUOTE :: tail) (cur ++ field) fields.
Proof.
  induction field as [| c field IH]; intros cur k tail fields Hcrlf Hin.
  - simpl. rewrite app_nil_r. reflexivity.
  - assert (Hin' := In_NL_body field tail Hin).
    assert (Htl := noCRLF_tail _ _ Hcrlf).
    replace (cur ++ c :: field) with ((cur ++ [c]) ++ field)
      by (rewrite <- app_assoc; reflexivity).
    cbn [escape flat_map filter]. fold (escape field).
    destruct (beq c QUOTE) eqn:Eq.
    + apply beq_eq in Eq as ->. cbn [orb length Nat.add app].
      rewrite parseQuotedAt_quote by exact Hin'. apply IH; assumption.
    + destruct (beq c NL) eqn:En.
      * apply beq_eq in En as ->. cbn [orb length Nat.add app].
        rewrite parseQuotedAt_newline. apply IH; assumption.
      * cbn [orb app]. rewrite Nat.add_succ_r.
        rewrite parseQuotedAt_byte.
        -- rewrite <- Nat.add_succ_r. apply IH; assumption.
        -- apply beq_neq, Eq.
        -- apply beq_neq, En.
        -- exact Hin'.
        -- apply hd_body, Hcrlf.
Qed.

Lemma needsQuotes_false (field : bytes) :
  fieldNeedsQuotes field = false -> existsb special field = false.
Proof.
  unfold fieldNeedsQuotes. destruct field as [| c field]; [reflexivity |].
  destruct (bytes_eqb _ _); [discriminate |].
  destruct (existsb special (c :: field)); [discriminate | reflexivity].
Qed.

(** A field as [writeField] writes it, before a comma. *)
Lemma parseFieldAt_field_comma (field : bytes) (m : nat) (input : bytes)
                               (fields : list bytes) :
  noCRLF field = true ->
  In NL input ->
  parseFieldAt (fsteps field + m) (writeField field ++ Comma :: input) fields
  = parseFieldAt m input (fields ++ [field]).
Proof.
  intros Hcrlf Hin. unfold fsteps, writeField, qsteps.
  destruct (fieldNeedsQuotes field) eqn:E.
  - cbn [app Nat.add]. rewrite <- app_assoc. cbn [app].
    rewrite parseFieldAt_open by (apply In_NL_body; right; exact Hin).
    rewrite <- Nat.add_succ_r.
    rewrite parseQuotedAt_body by (assumption || (right; exact Hin)).
    apply parseQuotedAt_comma, Hin.
  - apply parseFieldAt_plain_comma; [apply needsQuotes_false, E | exact Hin].
Qed.

(** A field as [writeField] writes it, at the end of the record. *)
Lemma parseFieldAt_field_end (field : bytes) (m : nat) (rest : bytes)
                             (fields : list bytes) :
  noCRLF field = true ->
  parseFieldAt (fsteps field + m) (writeField field ++ NL :: rest) fields
  = (fields ++ [field], None, rest).
Proof.
  intros Hcrlf. unfold fsteps, writeField, qsteps.
  destruct (fieldNeedsQuotes field) eqn:E.
  - cbn [app Nat.add]. rewrite <- app_assoc. cbn [app].
    rewrite parseFieldAt_open by (apply In_NL_body; left; reflexivity).
    rewrite <- Nat.add_succ_r.
    rewrite parseQuotedAt_body by (assumption || (left; reflexivity)).
    apply parseQuotedAt_end.
  - apply parseFieldAt_plain_end, needsQuotes_false, E.
Qed.

(** *** A record *)

Lemma writeFields_cons (field field' : bytes) (record : list bytes) :
  writeFields (field :: field' :: record)
  = writeField field ++ Comma :: writeFields (field' :: record).
Proof. reflexivity. Qed.

Lemma parseFieldAt_record (record : list bytes) :
  forall (m : nat) (rest : bytes) (fields : list bytes),
    record <> [] ->
    Forall (fun field => noCRLF field = true) record ->
    parseFieldAt (rsteps record + m) (writeFields record ++ NL :: rest) fields
    = (fields ++ record, None, rest).
Proof.
  induction record as [| field record IH]; intros m rest fields Hne Hall;
    [congruence |].
  apply Forall_cons_iff in Hall as [Hf Hall].
  destruct record as [| field' record].
  - cbn [rsteps fold_right writeFields]. rewrite Nat.add_0_r.
    apply parseFieldAt_field_end, Hf.
  - rewrite writeFields_cons. cbn [rsteps fold_right]. fold (rsteps (field' :: record)).
    rewrite <- app_assoc, <- Nat.add_assoc. cbn [app].
    rewrite parseFieldAt_field_comma.
    + rewrite IH by (assumption || discriminate).
      rewrite <- app_assoc. reflexivity.
    + exact Hf.
    + apply in_or_app. right. left. reflexivity.
Qed.

Lemma length_escape (field : bytes) : length field <= length (escape field).
Proof.
  induction field as [| c field IH]; simpl; [lia |].
  destruct (beq c QUOTE); simpl; lia.
Qed.

Lemma fsteps_bound (field : bytes) : fsteps field <= length (writeField field) + 1.
Proof.
  unfold fsteps, writeField, qsteps.
  destruct (fieldNeedsQuotes field); [| lia].
  assert (H1 := filter_length_le (fun c => beq c QUOTE || beq c NL) field).
  assert (H2 := length_escape field).
  cbn [length]. rewrite length_app. simpl. lia.
Qed.

Lemma rsteps_bound (record : list bytes) :
  rsteps record <= length (Write record).
Proof.
  unfold Write. rewrite length_app. cbn [length].
  induction record as [| field record IH]; [simpl; lia |].
  assert (Hf := fsteps_bound field).
  destruct record as [| field' record].
  - cbn [rsteps fold_right writeFields]. lia.
  - rewrite writeFields_cons. cbn [rsteps fold_right] in *.
    rewrite length_app. cbn [length]. lia.
Qed.

(** A record of two fields and more starts with a byte that is neither a
    line break nor a carriage return. *)
Lemma writeFields_head (field field' : bytes) (record : list bytes) :
  exists c t, writeFields (field :: field' :: record) = c :: t
              /\ c <> NL /\ c <> CR.
Proof.
  rewrite writeFields_cons. unfold writeField.
  destruct (fieldNeedsQuotes field) eqn:E.
  - eexists _, _. split; [reflexivity | split; discriminate].
  - destruct field as [| c field].
    + eexists _, _. split; [reflexivity | split; discriminate].
    + exists c. eexists. split; [reflexivity |].
      apply needsQuotes_false, special_lacks in E as (H1 & H2 & _).
      apply lacks_cons in H1 as [H1 _]. apply lacks_cons in H2 as [H2 _].
      auto.
Qed.

Lemma lengthNL_le (line : bytes) : lengthNL line <= 1.
Proof.
  unfold lengthNL. destruct (rev line) as [| c l]; [lia |].
  destruct (beq c NL); lia.
Qed.

(** [readRecord] on a record of the writer, of two fields and more: the
    record comes back, and the input after it is left. *)
Lemma readRecord_Write (record : list bytes) (more : bytes) (fpr : nat) :
  2 <= length record ->
  Forall (fun field => noCRLF field = true) record ->
  readRecord (Write record ++ more) fpr
  = if 0 <? fpr
    then if negb (length record =? fpr)
         then (record, Some ErrFieldCount, more, fpr)
         else (record, None, more, fpr)
    else (record, None, more, length record).
Proof.
  intros Hlen Hall. unfold readRecord, Write.
  rewrite <- app_assoc. cbn [app].
  set (input := writeFields record ++ NL :: more).
  assert (Hin : In NL input) by (apply in_or_app; right; left; reflexivity).
  assert (Hbound : rsteps record <= length input).
  { assert (H := rsteps_bound record). unfold Write in H. subst input.
    rewrite length_app in *. simpl in *. lia. }
  assert (Hparse : forall n, rsteps record <= n ->
                             parseFieldAt n input [] = (record, None, more)).
  { intros n Hn. replace n with (rsteps record + (n - rsteps record)) by lia.
    subst input. rewrite parseFieldAt_record; [reflexivity | | exact Hall].
    intros ->. simpl in Hlen. lia. }
  assert (Hlong := readLine_length _ Hin).
  unfold parseFieldAt in Hparse.
  assert (Hline : exists c line rest,
             readLine input = (c :: line, rest, false) /\ line <> []).
  { destruct record as [| field [| field' record]]; try (simpl in Hlen; lia).
    destruct (writeFields_head field field' record) as (c & t & Et & Hc1 & Hc2).
    subst input. rewrite Et in *. cbn [app] in *.
    assert (Hin' : In NL (t ++ NL :: more))
      by (apply in_or_app; right; left; reflexivity).
    rewrite readLine_cons by (assumption || congruence).
    assert (Hne := readLine_nonempty _ Hin').
    destruct (split_at_NL _ Hin') as (l & r & El & Hl).
    rewrite El in *. rewrite readLine_at in * by exact Hl.
    eexists _, _, _. split; [reflexivity | exact Hne]. }
  destruct Hline as (c & line & rest & Eline & Hne).
  rewrite Eline in *. cbn [fst snd] in Hlong.
  cbn [skipEmpty]. rewrite Eline.
  assert (Hnl := lengthNL_le (c :: line)).
  replace (length (c :: line) =? lengthNL (c :: line)) with false.
  2:{ symmetry. apply Nat.eqb_neq. destruct line; [congruence |].
      cbn [length] in *. lia. }
  rewrite Hparse by lia. reflexivity.
Qed.

Lemma length_Write_pos (record : list bytes) : 1 <= length (Write record).
Proof. unfold Write. rewrite length_app. simpl. lia. Qed.

Lemma length_rows (rows : list (list bytes)) :
  length rows <= length (flat_map Write rows).
Proof.
  induction rows as [| record rows IH]; simpl; [lia |].
  rewrite length_app. assert (H := length_Write_pos record). lia.
Qed.

Lemma readRecord_end (fpr : nat) : readRecord [] fpr = ([], Some EOF, [], fpr).
Proof. reflexivity. Qed.

(** The loop of [ReadAll] on rows of the writer that all have the
    expected number of fields. *)
Lemma readRecords_rows (w : nat) (rows : list (list bytes)) :
  2 <= w ->
  Forall (fun record => length record = w
                        /\ Forall (fun field => noCRLF field = true) record)
         rows ->
  forall n records,
    length rows < n ->
    readRecords n (flat_map Write rows) w records = (records ++ rows, None).
Proof.
  intros Hw. induction 1 as [| record rows [Hlen Hall] _ IH];
    intros n records Hn; (destruct n as [| n]; [lia |]).
  - cbn [flat_map readRecords]. rewrite readRecord_end, app_nil_r.
    reflexivity.
  - cbn [flat_map readRecords].
    rewrite readRecord_Write by (assumption || lia).
    replace (0 <? w) with true by (symmetry; apply Nat.ltb_lt; lia).
    rewrite Hlen, Nat.eqb_refl. cbn [negb].
    rewrite IH by (simpl in Hn; lia).
    rewrite <- app_assoc. reflexivity.
Qed.

(** [ReadAll] gives back the rows the writer wrote, when they all have
    as many fields as the first, two or more, and no field holds a
    carriage return right before a newline. *)
Lemma ReadAll_Write (first : list bytes) (rows : list (list bytes)) :
  2 <= length first ->
  Forall (fun record => length record = length first
                        /\ Forall (fun field => noCRLF field = true) record)
         (first :: rows) ->
  ReadAll (Write first ++ flat_map Write rows) = (first :: rows, None).
Proof.
  intros Hw Hall. apply Forall_cons_iff in Hall as [[_ Hfirst] Hrows].
  unfold ReadAll. cbn [readRecords].
  rewrite readRecord_Write by assumption. cbn [Nat.ltb Nat.leb].
  rewrite (readRecords_rows _ _ Hw Hrows); [reflexivity |].
  rewrite length_app.
  assert (H1 := length_Write_pos first). assert (H2 := length_rows rows).
  lia.
Qed.

End ReaderSteps.

(* ================================================================= *)
(** ** The table *)

Lemma uint_numeric (d : Decimal.uint) :
  forallb numeric (str (NilEmpty.string_of_uint d)) = true.
Proof. induction d; simpl; auto. Qed.

Lemma FormatInt_numeric (i : Z) : forallb numeric (FormatInt i) = true.
Proof.
  unfold FormatInt, NilZero.string_of_int, NilZero.string_of_uint.
  destruct (Z.to_int i) as [d | d]; destruct d; try reflexivity;
    apply (uint_numeric (_ _)) || (simpl; apply (uint_numeric _)).
Qed.

Lemma numeric_lacks (x : ascii) (s : bytes) :
  numeric x = false -> forallb numeric s = true -> lacks x s = true.
Proof.
  intros Hx. induction s as [| c s IH]; [reflexivity |]. simpl.
  intros H. apply andb_true_iff in H as [Hc H].
  apply ReaderSteps.lacks_cons. split; [congruence | exact (IH H)].
Qed.

Lemma lacks_CR_noCRLF (s : bytes) : lacks CR s = true -> noCRLF s = true.
Proof.
  induction s as [| c s IH]; [reflexivity |].
  intros H. apply ReaderSteps.lacks_cons in H as [Hc H].
  cbn [noCRLF]. destruct s as [| d s]; [reflexivity |].
  apply beq_neq in Hc. rewrite Hc. cbn [andb negb]. exact (IH H).
Qed.

Lemma lacks_NL_noCRLF (s : bytes) : lacks NL s = true -> noCRLF s = true.
Proof.
  induction s as [| c s IH]; [reflexivity |].
  intros H. apply ReaderSteps.lacks_cons in H as [Hc H].
  cbn [noCRLF]. destruct s as [| d s]; [reflexivity |].
  rewrite (IH H), andb_true_r. apply negb_true_iff, andb_false_iff. right.
  apply ReaderSteps.lacks_cons in H as [Hd _]. apply beq_neq, Hd.
Qed.

Lemma FormatInt_noCRLF (i : Z) : noCRLF (FormatInt i) = true.
Proof.
  apply lacks_CR_noCRLF, numeric_lacks; [reflexivity | apply FormatInt_numeric].
Qed.

(** The row of a file determines its record. *)
Lemma row_inj (f g : FileInfo) : row f = row g -> f = g.
Proof.
  destruct f as [n1 s1 t1 p1], g as [n2 s2 t2 p2]. unfold row. simpl.
  intros [= -> Hs -> ->]. apply FormatInt_inj in Hs as ->. reflexivity.
Qed.

Lemma table_rows (files : list FileInfo) :
  table files = Csv.Write header ++ flat_map Csv.Write (map row files).
Proof.
  unfold table. f_equal. induction files as [| f files IH]; simpl;
    [reflexivity | rewrite IH; reflexivity].
Qed.

Lemma rows_kept (files : list FileInfo) :
  forallb keepsFields files = true ->
  Forall (fun record =>
            length record = length header
            /\ Forall (fun field => noCRLF field = true) record)
         (header :: map row files).
Proof.
  intros H. constructor.
  - split; [reflexivity |]. repeat constructor.
  - rewrite forallb_forall in H. apply Forall_forall.
    intros record Hin. apply in_map_iff in Hin as (f & <- & Hin).
    specialize (H f Hin). unfold keepsFields in H.
    apply andb_true_iff in H as [H Hp]. apply andb_true_iff in H as [Hn Ht].
    split; [reflexivity |].
    repeat constructor; try assumption. apply FormatInt_noCRLF.
Qed.

(** Loading the table of records that it keeps gives back their rows. *)
Lemma ReadAll_table (files : list FileInfo) :
  forallb keepsFields files = true ->
  Csv.ReadAll (table files) = (header :: map row files, None).
Proof.
  intros H. rewrite table_rows.
  apply ReaderSteps.ReadAll_Write; [simpl; lia | apply rows_kept, H].
Qed.

(** C8, against the claim.  A record whose name holds a carriage return
    right before a newline does not come back as it was: the reader
    drops the carriage return. *)
Lemma crlf_in_name_is_not_kept :
  Csv.ReadAll (table [ mkFileInfo (str "a" ++ [CR; NL] ++ str "b") 1
                                  Sniff.text_plain (str "d/a") ])
  = ([ header;
       [ str "a" ++ [NL] ++ str "b"; str "1"; Sniff.text_plain; str "d/a" ] ],
     None)
  /\ Csv.ReadAll (table [ mkFileInfo (str "a" ++ [CR; NL] ++ str "b") 1
                                     Sniff.text_plain (str "d/a") ])
     <> (header :: map row [ mkFileInfo (str "a" ++ [CR; NL] ++ str "b") 1
                                        Sniff.text_plain (str "d/a") ],
         None).
Proof. split; [vm_compute; reflexivity | vm_compute; discriminate]. Qed.

(** C8, amended.  For every list of records in which no name, type or
    path holds a carriage return right before a newline, writing the
    table and loading it gives the header and, for every record in order,
    the row of its name, the decimal rendering of its size, its type and
    its path; and these four fields determine the record. *)
Theorem table_round_trip (files : list FileInfo) :
  forallb keepsFields files = true ->
  Csv.ReadAll (table files)
  = ([str "Name"; str "Size"; str "Type"; str "Path"]
       :: map (fun f => [Name f; FormatInt (Size f); Type_ f; Path f]) files,
     None)
  /\ (forall f g : FileInfo,
         [Name f; FormatInt (Size f); Type_ f; Path f]
         = [Name g; FormatInt (Size g); Type_ g; Path g] ->
         f = g).
Proof.
  intros H. split; [exact (ReadAll_table files H) | exact row_inj].
Qed.

Lemma table_round_trip_witness :
  Csv.ReadAll
    (table [ mkFileInfo (str "a,b.txt") 12 Sniff.text_plain
                        (str "docs/a,b.txt");
             mkFileInfo (str "line" ++ [NL] ++ str "break") 0
                        Sniff.octet_stream (quote (str "q")) ])
  = ([ [str "Name"; str "Size"; str "Type"; str "Path"];
       [str "a,b.txt"; str "12"; Sniff.text_plain; str "docs/a,b.txt"];
       [str "line" ++ [NL] ++ str "break"; str "0"; Sniff.octet_stream;
        quote (str "q")] ],
     None).
Proof.
  exact (proj1 (table_round_trip
                  [ mkFileInfo (str "a,b.txt") 12 Sniff.text_plain
                               (str "docs/a,b.txt");
                    mkFileInfo (str "line" ++ [NL] ++ str "break") 0
                               Sniff.octet_stream (quote (str "q")) ]
                  eq_refl)).
Defined.

(** *** Line breaks *)









(* ================================================================= *)
(** ** The index *)

Section IndexFacts.

Variable Join : bytes -> bytes -> bytes.

Local Opaque HasPrefix Sniff.DetectContentType.

Lemma recordOf_type_one_line (entry : bytes * node) :
  lacks NL (Type_ (recordOf entry)) = true.
Proof.
  destruct entry as [path info]. cbn [recordOf Type_].
  apply (SniffFacts.DetectContentType_all (lacks NL)).
  vm_compute. reflexivity.
Qed.

Lemma recordOf_type_noCRLF (entry : bytes * node) :
  noCRLF (Type_ (recordOf entry)) = true.
Proof. apply lacks_NL_noCRLF, recordOf_type_one_line. Qed.

(** The run on a sound tree. *)
Lemma BuildIndex_sound (root : bytes) (tree : node) (indexCsv : option bytes) :
  sound tree = true ->
  BuildIndex Join root tree Writable indexCsv
  = (Indexed (map recordOf (visible Join root tree)),
     Some (table (map recordOf (visible Join root tree)))).
Proof.
  intros Hs. unfold BuildIndex. rewrite Walk_sound by exact Hs.
  reflexivity.
Qed.


Lemma short_sample_type (data : bytes) :
  length data < 512 ->
  noMagic (sample data) = true ->
  Sniff.DetectContentType (sample data) = Sniff.octet_stream.
Proof.
  intros Hlen Hm. rewrite SniffFacts.DetectContentType_noMagic by exact Hm.
  rewrite SniffFacts.sample_short_binary by exact Hlen. reflexivity.
Qed.

End IndexFacts.

(* ================================================================= *)
(** ** The theorems on an example *)

Lemma walk_excludes_git_entries_witness :
  Walk slashJoin (str "test_data") test_data []
  = ([ mkFileInfo (str "user1.json") 16 Sniff.octet_stream
                  (str "test_data/data/user1.json");
       mkFileInfo (str "user2.json") 17 Sniff.octet_stream
                  (str "test_data/data/user2.json") ], None)
  /\ [ mkFileInfo (str "user1.json") 16 Sniff.octet_stream
                  (str "test_data/data/user1.json");
       mkFileInfo (str "user2.json") 17 Sniff.octet_stream
                  (str "test_data/data/user2.json") ]
     = map recordOf (visible slashJoin (str "test_data") test_data).
Proof.
  assert (H : Walk slashJoin (str "test_data") test_data []
              = ([ mkFileInfo (str "user1.json") 16 Sniff.octet_stream
                              (str "test_data/data/user1.json");
                   mkFileInfo (str "user2.json") 17 Sniff.octet_stream
                              (str "test_data/data/user2.json") ], None))
    by (vm_compute; reflexivity).
  split; [exact H |].
  exact (proj1 (proj2 (proj2 (walk_excludes_git_entries
                                slashJoin (str "test_data") test_data _ _ H)))
               eq_refl).
Defined.


Lemma traversal_error_aborts_the_index_witness :
  broken locked_data = true
  /\ exists e,
       e <> SkipDir
       /\ BuildIndex slashJoin (str "test_data") locked_data Writable
                     (Some (table []))
          = (WalkFailed e, Some (table [])).
Proof.
  split; [reflexivity |].
  destruct (proj1 (traversal_error_aborts_the_index
                     slashJoin (str "test_data") locked_data Writable
                     (Some (table [])) eq_refl))
    as (e & He & HB & _).
  exists e. split; [exact He | exact HB].
Defined.


(* ================================================================= *)
(** ** The reader on every table of the writer *)

Module ReaderCRLF.
Import Csv ReaderSteps.

Lemma dropCRLF_2 (c d : ascii) (s : bytes) :
  dropCRLF (c :: d :: s)
  = if beq c CR && beq d NL then dropCRLF (d :: s) else c :: dropCRLF (d :: s).
Proof. reflexivity. Qed.

Lemma dropCRLF_cons (c : ascii) (s : bytes) :
  (c = CR -> hd NUL s <> NL) -> dropCRLF (c :: s) = c :: dropCRLF s.
Proof.
  intros H. destruct s as [| d s]; [reflexivity |]. rewrite dropCRLF_2.
  destruct (beq c CR) eqn:Ec; [| reflexivity].
  apply beq_eq in Ec. specialize (H Ec). cbn [hd] in H.
  apply beq_neq in H. rewrite H. reflexivity.
Qed.

Lemma dropCRLF_CRLF (s : bytes) : dropCRLF (CR :: NL :: s) = NL :: dropCRLF s.
Proof.
  rewrite dropCRLF_2. change (beq CR CR && beq NL NL) with true. cbv iota.
  apply dropCRLF_cons. discriminate.
Qed.

Lemma dropCRLF_noCRLF (s : bytes) : noCRLF s = true -> dropCRLF s = s.
Proof.
  induction s as [| c s IH]; [reflexivity |].
  intros H. assert (Ht := noCRLF_tail _ _ H).
  destruct s as [| d s]; [reflexivity |]. rewrite dropCRLF_2.
  change (noCRLF (c :: d :: s))
    with (negb (beq c CR && beq d NL) && noCRLF (d :: s)) in H.
  apply andb_true_iff in H as [H _]. apply negb_true_iff in H. rewrite H.
  f_equal. apply IH, Ht.
Qed.

Lemma noCRLF_dropCRLF (s : bytes) : dropCRLF s = s -> noCRLF s = true.
Proof.
  induction s as [| c s IH]; [reflexivity |].
  destruct s as [| d s]; [reflexivity |]. rewrite dropCRLF_2.
  change (noCRLF (c :: d :: s))
    with (negb (beq c CR && beq d NL) && noCRLF (d :: s)).
  destruct (beq c CR && beq d NL) eqn:E.
  - intros H. exfalso.
    assert (Hlen : forall t, length (dropCRLF t) <= length t).
    { clear. induction t as [| a t IHt]; [simpl; lia |].
      destruct t as [| b t]; [simpl; lia |]. rewrite dropCRLF_2.
      destruct (_ && _); cbn [length] in *; lia. }
    specialize (Hlen (d :: s)). rewrite H in Hlen. cbn [length] in Hlen. lia.
  - intros [= H]. cbn [negb andb]. apply IH, H.
Qed.

(** A carriage return and a newline inside a quoted field: the reader
    keeps the newline only. *)
Lemma parseQuotedAt_CRLF (n : nat) (input cur : bytes) (fields : list bytes) :
  parseQuotedAt (S n) (CR :: NL :: input) cur fields
  = parseQuotedAt n input (cur ++ [NL]) fields.
Proof.
  unfold parseQuotedAt.
  rewrite (readLine_at [CR] input eq_refl
           : readLine (CR :: NL :: input) = ([NL], input, false)).
  rewrite parseQuoted_S. reflexivity.
Qed.

Lemma hd_escape (field tail : bytes) :
  hd NUL field <> NL -> hd NUL (escape field ++ QUOTE :: tail) <> NL.
Proof.
  destruct field as [| d field]; [intros _; discriminate |].
  cbn [hd]. intros H. cbn [escape flat_map].
  destruct (beq d QUOTE) eqn:E; [discriminate | exact H].
Qed.

(** The body of any quoted field, up to its closing quote. *)
Lemma parseQuotedAt_body_crlf (m : nat) :
  forall (field : bytes),
    length field <= m ->
    forall (cur : bytes) (k : nat) (tail : bytes) (fields : list bytes),
      In NL tail ->
      parseQuotedAt
        (length (filter (fun c => beq c QUOTE || beq c NL) field) + S k)
        (escape field ++ QUOTE :: tail) cur fields
      = parseQuotedAt (S k) (QUOTE :: tail) (cur ++ dropCRLF field) fields.
Proof.
  induction m as [| m IH]; intros field Hm cur k tail fields Hin.
  - destruct field; [| simpl in Hm; lia]. simpl. rewrite app_nil_r.
    reflexivity.
  - destruct field as [| c field]; [simpl; rewrite app_nil_r; reflexivity |].
    assert (Hm' : length field <= m) by (simpl in Hm; lia).
    assert (Hin' := In_NL_body field tail Hin).
    destruct (beq c CR && beq (hd NUL field) NL) eqn:E.
    + apply andb_true_iff in E as [Ec Ed]. apply beq_eq in Ec as ->.
      destruct field as [| d field]; [discriminate Ed |].
      cbn [hd] in Ed. apply beq_eq in Ed as ->.
      rewrite dropCRLF_CRLF.
      replace (cur ++ NL :: dropCRLF field)
        with ((cur ++ [NL]) ++ dropCRLF field)
        by (rewrite <- app_assoc; reflexivity).
      assert (E1 : escape (CR :: NL :: field) = CR :: NL :: escape field)
        by reflexivity.
      assert (E2 : filter (fun c => beq c QUOTE || beq c NL)
                          (CR :: NL :: field)
                   = NL :: filter (fun c => beq c QUOTE || beq c NL) field)
        by reflexivity.
      rewrite E1, E2. cbn [length Nat.add app].
      rewrite parseQuotedAt_CRLF.
      apply IH; [simpl in Hm'; lia | exact Hin].
    + assert (Hcr : c = CR -> hd NUL field <> NL).
      { intros ->. rewrite beq_refl in E. cbn [andb] in E.
        apply beq_neq, E. }
      rewrite dropCRLF_cons by exact Hcr.
      replace (cur ++ c :: dropCRLF field)
        with ((cur ++ [c]) ++ dropCRLF field)
        by (rewrite <- app_assoc; reflexivity).
      cbn [escape flat_map filter]. fold (escape field).
      destruct (beq c QUOTE) eqn:Eq.
      * apply beq_eq in Eq as ->. cbn [orb length Nat.add app].
        rewrite parseQuotedAt_quote by exact Hin'. apply IH; assumption.
      * destruct (beq c NL) eqn:En.
        -- apply beq_eq in En as ->. cbn [orb length Nat.add app].
           rewrite parseQuotedAt_newline. apply IH; assumption.
        -- cbn [orb app]. rewrite Nat.add_succ_r.
           rewrite parseQuotedAt_byte.
           ++ rewrite <- Nat.add_succ_r. apply IH; assumption.
           ++ apply beq_neq, Eq.
           ++ apply beq_neq, En.
           ++ exact Hin'.
           ++ intros Hc. apply hd_escape, Hcr, Hc.
Qed.

Lemma lacks_CR_dropCRLF (s : bytes) : lacks CR s = true -> dropCRLF s = s.
Proof. intros H. apply dropCRLF_noCRLF, lacks_CR_noCRLF, H. Qed.

(** Any field as [writeField] writes it, before a comma. *)
Lemma parseFieldAt_written_comma (field : bytes) (m : nat) (input : bytes)
                                 (fields : list bytes) :
  In NL input ->
  parseFieldAt (fsteps field + m) (writeField field ++ Comma :: input) fields
  = parseFieldAt m input (fields ++ [dropCRLF field]).
Proof.
  intros Hin. unfold fsteps, writeField, qsteps.
  destruct (fieldNeedsQuotes field) eqn:E.
  - cbn [app Nat.add]. rewrite <- app_assoc. cbn [app].
    rewrite parseFieldAt_open by (apply In_NL_body; right; exact Hin).
    rewrite <- Nat.add_succ_r.
    rewrite (parseQuotedAt_body_crlf (length field))
      by (lia || (right; exact Hin)).
    apply parseQuotedAt_comma, Hin.
  - assert (Hs := needsQuotes_false _ E).
    rewrite lacks_CR_dropCRLF by (apply special_lacks in Hs; tauto).
    apply parseFieldAt_plain_comma; assumption.
Qed.

(** Any field as [writeField] writes it, at the end of the record. *)
Lemma parseFieldAt_written_end (field : bytes) (m : nat) (rest : bytes)
                               (fields : list bytes) :
  parseFieldAt (fsteps field + m) (writeField field ++ NL :: rest) fields
  = (fields ++ [dropCRLF field], None, rest).
Proof.
  unfold fsteps, writeField, qsteps.
  destruct (fieldNeedsQuotes field) eqn:E.
  - cbn [app Nat.add]. rewrite <- app_assoc. cbn [app].
    rewrite parseFieldAt_open by (apply In_NL_body; left; reflexivity).
    rewrite <- Nat.add_succ_r.
    rewrite (parseQuotedAt_body_crlf (length field))
      by (lia || (left; reflexivity)).
    apply parseQuotedAt_end.
  - assert (Hs := needsQuotes_false _ E).
    rewrite lacks_CR_dropCRLF by (apply special_lacks in Hs; tauto).
    apply parseFieldAt_plain_end, Hs.
Qed.

Lemma parseFieldAt_written (record : list bytes) :
  forall (m : nat) (rest : bytes) (fields : list bytes),
    record <> [] ->
    parseFieldAt (rsteps record + m) (writeFields record ++ NL :: rest) fields
    = (fields ++ map dropCRLF record, None, rest).
Proof.
  induction record as [| field record IH]; intros m rest fields Hne;
    [congruence |].
  destruct record as [| field' record].
  - cbn [rsteps fold_right writeFields]. rewrite Nat.add_0_r.
    apply parseFieldAt_written_end.
  - rewrite writeFields_cons. cbn [rsteps fold_right].
    fold (rsteps (field' :: record)).
    rewrite <- app_assoc, <- Nat.add_assoc. cbn [app].
    rewrite parseFieldAt_written_comma.
    + rewrite IH by discriminate.
      rewrite <- app_assoc. reflexivity.
    + apply in_or_app. right. left. reflexivity.
Qed.

(** [readRecord] on any record of the writer, of two fields and more. *)
Lemma readRecord_written (record : list bytes) (more : bytes) (fpr : nat) :
  2 <= length record ->
  readRecord (Write record ++ more) fpr
  = if 0 <? fpr
    then if negb (length record =? fpr)
         then (map dropCRLF record, Some ErrFieldCount, more, fpr)
         else (map dropCRLF record, None, more, fpr)
    else (map dropCRLF record, None, more, length record).
Proof.
  intros Hlen. unfold readRecord, Write.
  rewrite <- app_assoc. cbn [app].
  set (input := writeFields record ++ NL :: more).
  assert (Hin : In NL input) by (apply in_or_app; right; left; reflexivity).
  assert (Hbound : rsteps record <= length input).
  { assert (H := rsteps_bound record). unfold Write in H. subst input.
    rewrite length_app in *. simpl in *. lia. }
  assert (Hparse : forall n, rsteps record <= n ->
                             parseFieldAt n input []
                             = (map dropCRLF record, None, more)).
  { intros n Hn. replace n with (rsteps record + (n - rsteps record)) by lia.
    subst input. rewrite parseFieldAt_written; [reflexivity |].
    intros ->. simpl in Hlen. lia. }
  assert (Hlong := readLine_length _ Hin).
  unfold parseFieldAt in Hparse.
  assert (Hline : exists c line rest,
             readLine input = (c :: line, rest, false) /\ line <> []).
  { destruct record as [| field [| field' record]]; try (simpl in Hlen; lia).
    destruct (writeFields_head field field' record) as (c & t & Et & Hc1 & Hc2).
    subst input. rewrite Et in *. cbn [app] in *.
    assert (Hin' : In NL (t ++ NL :: more))
      by (apply in_or_app; right; left; reflexivity).
    rewrite readLine_cons by (assumption || congruence).
    assert (Hne := readLine_nonempty _ Hin').
    destruct (split_at_NL _ Hin') as (l & r & El & Hl).
    rewrite El in *. rewrite readLine_at in * by exact Hl.
    eexists _, _, _. split; [reflexivity | exact Hne]. }
  destruct Hline as (c & line & rest & Eline & Hne).
  rewrite Eline in *. cbn [fst snd] in Hlong.
  cbn [skipEmpty]. rewrite Eline.
  assert (Hnl := lengthNL_le (c :: line)).
  replace (length (c :: line) =? lengthNL (c :: line)) with false.
  2:{ symmetry. apply Nat.eqb_neq. destruct line; [congruence |].
      cbn [length] in *. lia. }
  rewrite Hparse by lia. rewrite length_map. reflexivity.
Qed.

Lemma readRecords_written (w : nat) (rows : list (list bytes)) :
  2 <= w ->
  Forall (fun record => length record = w) rows ->
  forall n records,
    length rows < n ->
    readRecords n (flat_map Write rows) w records
    = (records ++ map (map dropCRLF) rows, None).
Proof.
  intros Hw. induction 1 as [| record rows Hlen _ IH];
    intros n records Hn; (destruct n as [| n]; [lia |]).
  - cbn [flat_map readRecords map]. rewrite readRecord_end, app_nil_r.
    reflexivity.
  - cbn [flat_map readRecords map].
    rewrite readRecord_written by lia.
    replace (0 <? w) with true by (symmetry; apply Nat.ltb_lt; lia).
    rewrite Hlen, Nat.eqb_refl. cbn [negb].
    rewrite IH by (simpl in Hn; lia).
    rewrite <- app_assoc. reflexivity.
Qed.

(** [ReadAll] on the rows the writer wrote, when they all have as many
    fields as the first, two or more: every row comes back, its fields
    without the carriage returns that stood before a newline. *)
Lemma ReadAll_written (first : list bytes) (rows : list (list bytes)) :
  2 <= length first ->
  Forall (fun record => length record = length first) rows ->
  ReadAll (Write first ++ flat_map Write rows)
  = (map (map dropCRLF) (first :: rows), None).
Proof.
  intros Hw Hrows. unfold ReadAll. cbn [readRecords].
  rewrite readRecord_written by assumption. cbn [Nat.ltb Nat.leb].
  rewrite (readRecords_written _ _ Hw Hrows); [reflexivity |].
  rewrite length_app.
  assert (H1 := length_Write_pos first). assert (H2 := length_rows rows).
  lia.
Qed.

End ReaderCRLF.

(** Loading the table of any records gives their rows as [loaded] has
    them. *)
Lemma ReadAll_table_loaded (files : list FileInfo) :
  Csv.ReadAll (table files) = (header :: map loaded files, None).
Proof.
  rewrite table_rows, ReaderCRLF.ReadAll_written.
  - cbn [map]. rewrite map_map. reflexivity.
  - simpl. lia.
  - apply Forall_forall. intros record Hin.
    apply in_map_iff in Hin as (f & <- & _). reflexivity.
Qed.

(* ================================================================= *)
(** ** More of [search] *)

Lemma dropCRLF_FormatInt (i : Z) : dropCRLF (FormatInt i) = FormatInt i.
Proof. apply ReaderCRLF.dropCRLF_noCRLF, FormatInt_noCRLF. Qed.

Lemma loaded_fields (f : FileInfo) :
  loaded f
  = [dropCRLF (Name f); FormatInt (Size f); dropCRLF (Type_ f);
     dropCRLF (Path f)].
Proof. unfold loaded, row. cbn [map]. rewrite dropCRLF_FormatInt. reflexivity. Qed.

(** X13.  For every list of records, whatever bytes their names, types
    and paths hold, the table written for them loads without error as
    the header and one row per record, in order: the size comes back in
    decimal and the three other fields come back with every carriage
    return that stood right before a newline removed, hence unchanged
    exactly when they hold no such pair. *)
Theorem table_loads_with_crlf_dropped (files : list FileInfo) :
  Csv.ReadAll (table files)
  = ([str "Name"; str "Size"; str "Type"; str "Path"]
       :: map (fun f => [dropCRLF (Name f); FormatInt (Size f);
                         dropCRLF (Type_ f); dropCRLF (Path f)]) files,
     None)
  /\ (forall s, dropCRLF s = s <-> noCRLF s = true).
Proof.
  split.
  - rewrite ReadAll_table_loaded. f_equal. f_equal.
    apply map_ext, loaded_fields.
  - intros s. split;
      [apply ReaderCRLF.noCRLF_dropCRLF | apply ReaderCRLF.dropCRLF_noCRLF].
Qed.

Lemma filter_map_swap {A B} (f : A -> B) (p : B -> bool) (l : list A) :
  filter p (map f l) = map f (filter (fun x => p (f x)) l).
Proof.
  induction l as [| x l IH]; simpl; [reflexivity |].
  destruct (p (f x)); simpl; rewrite IH; reflexivity.
Qed.

(** [search] on a table the program wrote. *)
Lemma search_table (files : list FileInfo) (query : bytes) :
  search (Some (table files)) query
  = Printed (map loaded
                 (filter (fun f => Contains (dropCRLF (Name f)) query) files)).
Proof.
  unfold search. rewrite ReadAll_table_loaded. unfold searchLines.
  cbn [length Nat.eqb skipn]. rewrite searchLoop_filter, filter_map_swap.
  reflexivity.
Qed.

(** X15.  When the reader rejects [index.csv], on whatever line and for
    whatever reason, [search] reports the index as empty: the reader
    returns no line with an error, and the check of the lines comes
    before the check of the error. *)
Theorem read_failure_is_reported_as_empty
    (file query : bytes) (e : Csv.error) :
  snd (Csv.ReadAll file) = Some e ->
  search (Some file) query = EmptyIndexWarning.
Proof.
  intros H. apply search_warns_iff.
  destruct (Csv.ReadAll file) as [out err] eqn:E. cbn [snd fst] in *.
  subst err. exact (CsvFacts.ReadAll_error _ _ _ E).
Qed.

Lemma read_failure_is_reported_as_empty_witness :
  snd (Csv.ReadAll (str "Name,Size" ++ [NL] ++ str "a.txt" ++ [NL]))
  = Some Csv.ErrFieldCount
  /\ search (Some (str "Name,Size" ++ [NL] ++ str "a.txt" ++ [NL]))
            (str "a")
     = EmptyIndexWarning.
Proof.
  split; [vm_compute; reflexivity |].
  apply (read_failure_is_reported_as_empty _ _ Csv.ErrFieldCount).
  vm_compute. reflexivity.
Defined.

Lemma readRecord_width (input : bytes) (fpr : nat) d rest fpr' :
  Csv.readRecord input fpr = (d, None, rest, fpr') ->
  if 0 <? fpr then length d = fpr /\ fpr' = fpr else fpr' = length d.
Proof.
  unfold Csv.readRecord.
  destruct (Csv.skipEmpty _ input) as [[line r] [e |]]; [discriminate |].
  destruct (Csv.parseField _ line r []) as [[dst err] r'].
  destruct (0 <? fpr).
  - destruct err; [discriminate |].
    destruct (length dst =? fpr) eqn:E; cbn [negb]; [| discriminate].
    intros [= <- _ <-]. apply Nat.eqb_eq in E. auto.
  - intros [= <- _ _ <-]. reflexivity.
Qed.

Lemma readRecords_width (n : nat) :
  forall input fpr records out,
    Csv.readRecords n input fpr records = (out, None) ->
    (if 0 <? fpr
     then exists first more,
         records = first :: more /\ length first = fpr
         /\ Forall (fun r => length r = fpr) more
     else records = []) ->
    out = []
    \/ exists first more,
        out = first :: more /\ 0 < length first
        /\ Forall (fun r => length r = length first) more.
Proof.
  induction n as [| n IH]; intros input fpr records out; [discriminate |].
  cbn [Csv.readRecords].
  destruct (Csv.readRecord input fpr) as [[[record err] rest] fpr'] eqn:E.
  destruct err as [[| | | |] |]; try discriminate.
  - intros [= <-] Hinv. destruct (0 <? fpr) eqn:Ef.
    + destruct Hinv as (first & more & -> & Hl & Hall). right.
      exists first, more. apply Nat.ltb_lt in Ef. rewrite Hl.
      repeat split; [lia | exact Hall].
    + left. exact Hinv.
  - intros H Hinv. apply (IH _ _ _ _ H). clear IH H.
    assert (Hw := readRecord_width _ _ _ _ _ E).
    assert (Hne := CsvFacts.readRecord_some_field _ _ _ _ _ E).
    destruct (0 <? fpr) eqn:Ef.
    + destruct Hw as [Hw ->]. rewrite Ef.
      destruct Hinv as (first & more & -> & Hl & Hall).
      exists first, (more ++ [record]). repeat split; [exact Hl |].
      apply Forall_app. split; [exact Hall | repeat constructor; exact Hw].
    + subst fpr' records.
      replace (0 <? length record) with true.
      * exists record, []. repeat split. constructor.
      * symmetry. apply Nat.ltb_lt. destruct record; [congruence | simpl; lia].
Qed.

(** X16.  Whatever [index.csv] holds, every line [search] prints has as
    many fields as the first line of the file, and at least one: the
    reader takes the number of fields from the first record and rejects
    the file otherwise, so the check of the number of columns in the
    loop never skips a line. *)
Theorem printed_rows_are_as_wide_as_the_header
    (file query : bytes) (out : list (list bytes)) :
  search (Some file) query = Printed out ->
  exists first rows,
    Csv.ReadAll file = (first :: rows, None)
    /\ 0 < length first
    /\ Forall (fun line => length line = length first) rows
    /\ out = filter (matches query) rows.
Proof.
  unfold search, searchLines.
  destruct (Csv.ReadAll file) as [lines err] eqn:E.
  destruct lines as [| first rows]; [discriminate |].
  destruct err as [e |]; [discriminate |].
  cbn [length Nat.eqb skipn]. rewrite searchLoop_filter. intros [= <-].
  exists first, rows. split; [reflexivity |].
  unfold Csv.ReadAll in E.
  destruct (readRecords_width _ _ _ _ _ E eq_refl)
    as [H | (first' & more & H & Hpos & Hall)]; [discriminate H |].
  injection H as -> ->. auto.
Qed.

Lemma printed_rows_are_as_wide_as_the_header_witness :
  exists first rows,
    Csv.ReadAll (table [ mkFileInfo (str "a,b.txt") 12 Sniff.text_plain
                                    (str "docs/a,b.txt") ])
    = (first :: rows, None)
    /\ 0 < length first
    /\ Forall (fun line => length line = length first) rows
    /\ [ [str "a,b.txt"; str "12"; Sniff.text_plain; str "docs/a,b.txt"] ]
       = filter (matches (str "b.")) rows.
Proof.
  apply (printed_rows_are_as_wide_as_the_header
           (table [ mkFileInfo (str "a,b.txt") 12 Sniff.text_plain
                               (str "docs/a,b.txt") ])
           (str "b.")).
  vm_compute. reflexivity.
Defined.

Lemma substring_trans (a b c : bytes) :
  substring a b -> substring b c -> substring a c.
Proof.
  intros (p1 & q1 & ->) (p2 & q2 & ->). exists (p2 ++ p1), (q1 ++ q2).
  rewrite <- !app_assoc. reflexivity.
Qed.

Lemma filter_filter_impl {A} (p q : A -> bool) (l : list A) :
  (forall x, q x = true -> p x = true) ->
  filter q (filter p l) = filter q l.
Proof.
  intros H. induction l as [| x l IH]; simpl; [reflexivity |].
  destruct (p x) eqn:Ep; simpl; rewrite IH.
  - reflexivity.
  - destruct (q x) eqn:Eq; [| reflexivity].
    rewrite (H x Eq) in Ep. discriminate.
Qed.

Lemma matches_substring (query query' : bytes) (line : list bytes) :
  substring query query' ->
  matches query' line = true -> matches query line = true.
Proof.
  intros Hsub. destruct line as [| name more]; [discriminate |].
  cbn [matches]. rewrite !Contains_spec. intros H.
  exact (substring_trans _ _ _ Hsub H).
Qed.

(** X17.  A longer query narrows the search: when [query] occurs in
    [query'], searching the same index for [query'] prints the lines
    that the search for [query] prints and whose name contains
    [query'], in the same order, and no other line. *)
Theorem longer_query_narrows_the_search
    (indexCsv : option bytes) (query query' : bytes)
    (out : list (list bytes)) :
  substring query query' ->
  search indexCsv query = Printed out ->
  search indexCsv query' = Printed (filter (matches query') out).
Proof.
  intros Hsub. unfold search, searchLines.
  destruct indexCsv as [file |]; [| discriminate].
  destruct (Csv.ReadAll file) as [lines err].
  destruct (length lines =? 0); [discriminate |].
  destruct err as [e |]; [discriminate |].
  rewrite !searchLoop_filter. intros [= <-].
  rewrite filter_filter_impl; [reflexivity |].
  intros line. apply matches_substring, Hsub.
Qed.

Lemma longer_query_narrows_the_search_witness :
  search (Some (table [ mkFileInfo (str "user1.json") 16 Sniff.octet_stream
                                   (str "data/user1.json");
                        mkFileInfo (str "user2.json") 17 Sniff.octet_stream
                                   (str "data/user2.json") ]))
         (str "user2")
  = Printed
      (filter (matches (str "user2"))
              [ [str "user1.json"; str "16"; Sniff.octet_stream;
                 str "data/user1.json"];
                [str "user2.json"; str "17"; Sniff.octet_stream;
                 str "data/user2.json"] ]).
Proof.
  apply (longer_query_narrows_the_search _ (str "user")).
  - exists [], (str "2"). reflexivity.
  - vm_compute. reflexivity.
Defined.

(* ================================================================= *)
(** ** More of the walk and of [main] *)

Section MoreFacts.

Variable Join : bytes -> bytes -> bytes.

Local Opaque HasPrefix Sniff.DetectContentType.

(** *** The records gathered so far *)

Lemma walkFn_frame (path : bytes) (info : node) (err : option error)
                   (files : list FileInfo) :
  walkFn path info err files
  = (files ++ fst (walkFn path info err []), snd (walkFn path info err [])).
Proof.
  destruct err as [e |]; [simpl; rewrite app_nil_r; reflexivity |].
  destruct info as [name size c | name entries | name | name].
  - rewrite !walkFn_File. destruct (HasPrefix name _);
      [simpl; rewrite app_nil_r; reflexivity |].
    destruct c as [| | [| b data]]; simpl; rewrite ?app_nil_r; reflexivity.
  - unfold walkFn. cbn [infoName IsDir negb].
    destruct (HasPrefix name _); simpl; rewrite app_nil_r; reflexivity.
  - unfold walkFn. cbn [infoName IsDir negb].
    destruct (HasPrefix name _); simpl; rewrite app_nil_r; reflexivity.
  - unfold walkFn. cbn [infoName IsDir negb Open].
    destruct (HasPrefix name _); simpl; rewrite app_nil_r; reflexivity.
Qed.

Lemma walkLoop_frame (path : bytes) (names : list node) :
  Forall (fun entry =>
            forall path files,
              walk Join path entry files
              = (files ++ fst (walk Join path entry []),
                 snd (walk Join path entry []))) names ->
  forall files,
    walkLoop Join path names files
    = (files ++ fst (walkLoop Join path names []),
       snd (walkLoop Join path names [])).
Proof.
  induction 1 as [| entry names Hentry _ IH]; intros files.
  - simpl. rewrite app_nil_r. reflexivity.
  - assert (Hgo : forall f1,
               walkLoop Join path names (files ++ f1)
               = (files ++ fst (walkLoop Join path names f1),
                  snd (walkLoop Join path names f1))).
    { intros f1. rewrite (IH (files ++ f1)), (IH f1). cbn [fst snd].
      rewrite app_assoc. reflexivity. }
    cbn [walkLoop].
    destruct entry as [name size c | name entries | name | name].
    + rewrite (Hentry _ files).
      destruct (walk Join _ (File name size c) []) as [f1 [e |]];
        cbn [fst snd IsDir negb orb]; [reflexivity | apply Hgo].
    + rewrite (Hentry _ files).
      destruct (walk Join _ (Dir name entries) []) as [f1 [e |]];
        cbn [fst snd IsDir negb orb]; [| apply Hgo].
      destruct (negb (isSkipDir e)); [reflexivity | apply Hgo].
    + rewrite (Hentry _ files).
      destruct (walk Join _ (DirErr name) []) as [f1 [e |]];
        cbn [fst snd IsDir negb orb]; [| apply Hgo].
      destruct (negb (isSkipDir e)); [reflexivity | apply Hgo].
    + cbn [walkFn isSkipDir negb fst snd]. rewrite app_nil_r. reflexivity.
Qed.

Lemma walk_frame (info : node) :
  forall path files,
    walk Join path info files
    = (files ++ fst (walk Join path info []), snd (walk Join path info [])).
Proof.
  induction info as [name size c | name entries IH | name | name]
    using node_ind'; intros path files.
  - cbn [walk]. apply walkFn_frame.
  - rewrite !walk_Dir. destruct (HasPrefix name _).
    + simpl. rewrite app_nil_r. reflexivity.
    + apply walkLoop_frame, IH.
  - cbn [walk]. apply walkFn_frame.
  - cbn [walk]. apply walkFn_frame.
Qed.

(** X8.  The walk only appends to the slice of records: started with
    records already gathered, it returns them unchanged and in place,
    followed by what it would have gathered from an empty slice, and it
    ends with the same error or without one. *)
Theorem walk_only_appends
    (root : bytes) (tree : node) (files : list FileInfo) :
  Walk Join root tree files
  = (files ++ fst (Walk Join root tree []), snd (Walk Join root tree []))
  /\ walk Join root tree files
     = (files ++ fst (walk Join root tree []), snd (walk Join root tree [])).
Proof.
  split; [| apply walk_frame].
  rewrite !Walk_walk, (walk_frame tree root files).
  destruct (walk Join root tree []) as [f1 [[| | | | |] |]]; reflexivity.
Qed.

(** *** The files the walk comes to *)

Lemma visible_reaches (info : node) :
  forall path p n,
    In (p, n) (visible Join path info)
    -> (exists name size c, n = File name size c)
       /\ reaches Join path info p n.
Proof.
  induction info as [name size c | name entries IH | name | name]
    using node_ind'; intros path p n; cbn [visible infoName];
    destruct (HasPrefix name (str ".git")) eqn:E; cbn [In]; try tauto.
  - intros [[= <- <-] | []]. split; [eauto |].
    apply reaches_here. exact E.
  - intros Hin. apply in_flat_map in Hin as (entry & Hentry & Hin).
    rewrite Forall_forall in IH.
    destruct (IH entry Hentry _ _ _ Hin) as [Hfile Hr].
    split; [exact Hfile |].
    exact (reaches_below Join path name entries entry p n E Hentry Hr).
Qed.

Lemma reaches_visible (path : bytes) (info : node) (p : bytes)
                      (name : bytes) (size : Z) (c : content) :
  reaches Join path info p (File name size c) ->
  In (p, File name size c) (visible Join path info).
Proof.
  remember (File name size c) as n eqn:En.
  induction 1 as [path info Hex | path dir entries entry p n Hex Hentry _ IH].
  - subst info. cbn [visible infoName] in *. rewrite Hex. left. reflexivity.
  - cbn [visible infoName]. rewrite Hex. apply in_flat_map.
    exists entry. split; [exact Hentry | exact (IH En)].
Qed.

Lemma reaches_kept (path : bytes) (info : node) (p : bytes) (n : node) :
  reaches Join path info p n -> HasPrefix (infoName n) (str ".git") = false.
Proof. induction 1; assumption. Qed.

Lemma reaches_sound (path : bytes) (info : node) (p : bytes) (n : node) :
  reaches Join path info p n -> sound info = true -> sound n = true.
Proof.
  induction 1 as [path info Hex | path dir entries entry p n Hex Hentry _ IH];
    [auto |].
  cbn [sound]. rewrite Hex. cbn [orb]. intros Hs. apply IH.
  rewrite forallb_forall in Hs. exact (Hs entry Hentry).
Qed.

(** X9.  In a run that can examine every entry it comes to, the index
    holds a record for exactly the files that are reached from the root
    through directories whose names do not start with [.git], and whose
    own name does not: each record has the name and the size of the file
    as its metadata give them, the type detected on the sample of its
    content, and as path the root joined with the names on the way down,
    one after the other. *)
Theorem index_holds_the_files_within_reach
    (root : bytes) (tree : node) (indexCsv : option bytes) :
  sound tree = true ->
  exists files,
    BuildIndex Join root tree Writable indexCsv
    = (Indexed files, Some (table files))
    /\ forall f,
         In f files
         <-> exists path name size data,
               reaches Join root tree path (File name size (Holds data))
               /\ data <> []
               /\ f = mkFileInfo name size
                                 (Sniff.DetectContentType (sample data)) path.
Proof.
  intros Hs. exists (map recordOf (visible Join root tree)).
  split; [exact (BuildIndex_sound Join root tree indexCsv Hs) |].
  intros f. rewrite in_map_iff. split.
  - intros ([p n] & <- & Hin).
    destruct (visible_reaches tree _ _ _ Hin) as [(name & size & c & ->) Hr].
    assert (Hk := reaches_kept _ _ _ _ Hr).
    assert (Hn := reaches_sound _ _ _ _ Hr Hs).
    cbn [sound infoName] in Hk, Hn. rewrite Hk in Hn. cbn [orb] in Hn.
    destruct c as [| | [| b data]]; try discriminate Hn.
    exists p, name, size, (b :: data).
    split; [exact Hr | split; [discriminate | reflexivity]].
  - intros (p & name & size & data & Hr & _ & ->).
    exists (p, File name size (Holds data)).
    split; [reflexivity | apply reaches_visible, Hr].
Qed.

(** *** The sample *)

Lemma sample_firstn (data : bytes) : sample data = sample (firstn 512 data).
Proof.
  unfold sample. rewrite firstn_firstn, Nat.min_id, length_firstn.
  f_equal. f_equal. lia.
Qed.

(** X10.  The record of a file depends on its content through its first
    512 bytes only: two files with the same name and size whose contents
    agree on their first 512 bytes are treated alike by the callback,
    whatever follows in either. *)
Theorem record_depends_on_the_first_512_bytes
    (path name : bytes) (size : Z) (data data' : bytes)
    (files : list FileInfo) :
  data <> [] ->
  firstn 512 data = firstn 512 data' ->
  walkFn path (File name size (Holds data)) None files
  = walkFn path (File name size (Holds data')) None files.
Proof.
  intros Hne H. rewrite !walkFn_File.
  destruct (HasPrefix name _); [reflexivity |].
  destruct data as [| b data]; [congruence |].
  destruct data' as [| b' data']; [discriminate H |].
  rewrite (sample_firstn (b :: data)), (sample_firstn (b' :: data')), H.
  reflexivity.
Qed.

(** *** The outcome of [main] *)

(** X4.  Whatever the flags, the directory and the file system, a run
    leaves [index.csv] in one of three states.  Either it is exactly as
    it was, and the run reports no index and no failed write: the file
    is created after the walk only, so this is the case of every run
    that is refused, that only searches, whose walk fails or whose file
    cannot be created.  Or it holds the whole table of the records of a
    walk that ended without error, and the run reports these records.
    Or a write failed after the file was created: then it holds a start
    of that table, which may be empty, and the run ends on the failed
    write.  The last two happen only with the index flag and a
    directory, and a table cut short is left by a failed write only. *)
Theorem index_csv_is_untouched_whole_or_cut_short
    (fl : flags) (tree : node) (disk : diskState) (indexCsv : option bytes) :
  (snd (main Join fl tree disk indexCsv) = indexCsv
   /\ (forall files,
          fst (main Join fl tree disk indexCsv) <> IndexedOnly files
          /\ forall r,
               fst (main Join fl tree disk indexCsv)
               <> IndexedAndSearched files r)
   /\ fst (main Join fl tree disk indexCsv) <> IndexFailed WriteFailed)
  \/ (index fl = true /\ directory fl <> []
      /\ exists files,
           Walk Join (directory fl) tree [] = (files, None)
           /\ ((disk = Writable
                /\ snd (main Join fl tree disk indexCsv) = Some (table files)
                /\ (fst (main Join fl tree disk indexCsv) = IndexedOnly files
                    \/ fst (main Join fl tree disk indexCsv)
                       = IndexedAndSearched
                           files
                           (search (Some (table files)) (searchQuery fl))))
               \/ (exists written,
                      disk = WriteFails written
                      /\ snd (main Join fl tree disk indexCsv)
                         = Some (firstn written (table files))
                      /\ fst (main Join fl tree disk indexCsv)
                         = IndexFailed WriteFailed))).
Proof.
  destruct fl as [i q d]. unfold main. cbn [directory index searchQuery].
  assert (Hleft : forall (r : mainResult),
             (forall files, r <> IndexedOnly files) ->
             (forall files s, r <> IndexedAndSearched files s) ->
             r <> IndexFailed WriteFailed ->
             snd (r, indexCsv) = indexCsv
             /\ (forall files,
                    fst (r, indexCsv) <> IndexedOnly files
                    /\ forall s, fst (r, indexCsv) <> IndexedAndSearched files s)
             /\ fst (r, indexCsv) <> IndexFailed WriteFailed).
  { intros r H1 H2 H3. split; [reflexivity |]. split; [| exact H3].
    intros files. split; [apply H1 | apply H2]. }
  destruct d as [| c d], i, q as [| x q]; cbn [length Nat.eqb andb negb];
    try (left; apply Hleft; discriminate).
  - unfold BuildIndex.
    destruct (Walk Join (c :: d) tree []) as [files [e |]] eqn:W;
      [left; apply Hleft; discriminate |].
    destruct disk as [| written |]; [left; apply Hleft; discriminate | |];
      right; (split; [reflexivity |]); (split; [discriminate |]);
      exists files; (split; [reflexivity |]); cbn [fst snd].
    + right. exists written. auto.
    + left. auto.
  - unfold BuildIndex.
    destruct (Walk Join (c :: d) tree []) as [files [e |]] eqn:W;
      [left; apply Hleft; discriminate |].
    destruct disk as [| written |]; [left; apply Hleft; discriminate | |];
      right; (split; [reflexivity |]); (split; [discriminate |]);
      exists files; (split; [reflexivity |]); cbn [fst snd].
    + right. exists written. auto.
    + left. auto.
Qed.

Lemma main_index (root query : bytes) (tree : node) (disk : diskState)
                 (indexCsv : option bytes) :
  root <> [] ->
  main Join (mkFlags true query root) tree disk indexCsv
  = match BuildIndex Join root tree disk indexCsv with
    | (Indexed files, indexCsv') =>
        if length query =? 0 then (IndexedOnly files, indexCsv')
        else (IndexedAndSearched files (search indexCsv' query), indexCsv')
    | (r, indexCsv') => (IndexFailed r, indexCsv')
    end.
Proof.
  intros Hd. unfold main. cbn [directory index searchQuery].
  destruct root as [| c d]; [congruence |].
  cbn [length Nat.eqb andb negb]. rewrite !andb_false_r, !andb_true_r.
  destruct (BuildIndex Join (c :: d) tree disk indexCsv) as [[| | |] ?];
    try reflexivity.
  destruct (length query =? 0); reflexivity.
Qed.

(** X6.  When the walk ends without error but [index.csv] cannot be
    created, the run ends with that failure: the file keeps what it
    held, and the search is not run, even with a query. *)
Theorem index_that_cannot_be_created
    (root query : bytes) (tree : node) (indexCsv : option bytes)
    (files : list FileInfo) :
  root <> [] ->
  Walk Join root tree [] = (files, None) ->
  main Join (mkFlags true query root) tree NotCreatable indexCsv
  = (IndexFailed CreateFailed, indexCsv).
Proof.
  intros Hd Hw. rewrite main_index by exact Hd.
  unfold BuildIndex. rewrite Hw. reflexivity.
Qed.



(** C3, amended.  A directory whose name the exclusion rule keeps and
    that holds exactly [user1.json], of 16 bytes, and [user2.json], of
    17 bytes, whose contents start none of the signatures of the table
    before the text signature (as JSON text does not), is indexed as two
    records, both of the fallback type [application/octet-stream]; and
    the search of that index for [json] prints both rows, [user1.json]
    first, each with its name, size and type, and with its path as the
    reader gives it back: without the carriage returns that stood right
    before a newline, so as it was when it holds none. *)
Theorem two_json_files_are_indexed_and_found
    (root dirname content1 content2 : bytes) (indexCsv : option bytes) :
  ~ excluded dirname ->
  length content1 = 16 ->
  length content2 = 17 ->
  noMagic (sample content1) = true ->
  noMagic (sample content2) = true ->
  exists record1 record2,
    BuildIndex Join root
               (Dir dirname [ File (str "user1.json") 16 (Holds content1);
                              File (str "user2.json") 17 (Holds content2) ])
               Writable indexCsv
    = (Indexed [record1; record2], Some (table [record1; record2]))
    /\ record1 = mkFileInfo (str "user1.json") 16 Sniff.octet_stream
                            (Join root (str "user1.json"))
    /\ record2 = mkFileInfo (str "user2.json") 17 Sniff.octet_stream
                            (Join root (str "user2.json"))
    /\ search (Some (table [record1; record2])) (str "json")
       = Printed [ [ str "user1.json"; str "16"; Sniff.octet_stream;
                     dropCRLF (Join root (str "user1.json")) ];
                   [ str "user2.json"; str "17"; Sniff.octet_stream;
                     dropCRLF (Join root (str "user2.json")) ] ]
    /\ (forall path, noCRLF path = true -> dropCRLF path = path).
Proof.
  intros Hex H1 H2 Hm1 Hm2.
  assert (Hd : HasPrefix dirname (str ".git") = false).
  { destruct (HasPrefix dirname (str ".git")) eqn:E; [| reflexivity].
    exfalso. apply Hex, HasPrefix_excluded, E. }
  assert (Hu1 : HasPrefix (str "user1.json") (str ".git") = false)
    by (vm_compute; reflexivity).
  assert (Hu2 : HasPrefix (str "user2.json") (str ".git") = false)
    by (vm_compute; reflexivity).
  set (tree := Dir dirname _).
  assert (Hs : sound tree = true).
  { subst tree. cbn [sound forallb]. rewrite Hd, Hu1, Hu2.
    destruct content1; [discriminate |]. destruct content2; [discriminate |].
    reflexivity. }
  eexists _, _.
  split; [| split; [reflexivity | split; [reflexivity | split]]].
  - rewrite (BuildIndex_sound Join root tree indexCsv Hs). subst tree.
    cbn [visible infoName flat_map app map recordOf infoSize].
    rewrite Hd, Hu1, Hu2. cbn [app map recordOf infoName infoSize].
    rewrite !short_sample_type by (assumption || lia). reflexivity.
  - rewrite search_table. cbn [filter Name].
    replace (Contains (dropCRLF (str "user1.json")) (str "json")) with true
      by (vm_compute; reflexivity).
    replace (Contains (dropCRLF (str "user2.json")) (str "json")) with true
      by (vm_compute; reflexivity).
    cbn [map]. rewrite !loaded_fields. reflexivity.
  - apply ReaderCRLF.dropCRLF_noCRLF.
Qed.

End MoreFacts.

Lemma index_holds_the_files_within_reach_witness :
  sound test_data = true
  /\ exists files,
       BuildIndex slashJoin (str "test_data") test_data Writable None
       = (Indexed files, Some (table files))
       /\ (In (mkFileInfo (str "user2.json") 17
                          (Sniff.DetectContentType (sample user2_json))
                          (str "test_data/data/user2.json")) files
           <-> exists path name size data,
                 reaches slashJoin (str "test_data") test_data path
                         (File name size (Holds data))
                 /\ data <> []
                 /\ mkFileInfo (str "user2.json") 17
                               (Sniff.DetectContentType (sample user2_json))
                               (str "test_data/data/user2.json")
                    = mkFileInfo name size
                                 (Sniff.DetectContentType (sample data)) path).
Proof.
  split; [reflexivity |].
  destruct (index_holds_the_files_within_reach
              slashJoin (str "test_data") test_data None eq_refl)
    as (files & HB & Hin).
  exists files. split; [exact HB | apply Hin].
Defined.

Lemma record_depends_on_the_first_512_bytes_witness :
  walkFn (str "d/a") (File (str "a") 514
                           (Holds (repeat (byteOf 97) 512 ++ str "xy")))
         None []
  = walkFn (str "d/a") (File (str "a") 514
                             (Holds (repeat (byteOf 97) 512 ++ str "<html>")))
           None [].
Proof.
  apply record_depends_on_the_first_512_bytes.
  - vm_compute. discriminate.
  - vm_compute. reflexivity.
Defined.

Lemma index_that_cannot_be_created_witness :
  main slashJoin (mkFlags true (str "user") (str "test_data")) test_data
       NotCreatable (Some (table []))
  = (IndexFailed CreateFailed, Some (table [])).
Proof.
  eapply (index_that_cannot_be_created
            slashJoin (str "test_data") (str "user") test_data
            (Some (table []))
            (map recordOf (visible slashJoin (str "test_data") test_data))).
  - discriminate.
  - vm_compute. reflexivity.
Defined.



Lemma two_json_files_are_indexed_and_found_witness :
  exists record1 record2,
    BuildIndex slashJoin (str "data")
               (Dir (str "data")
                    [ File (str "user1.json") 16 (Holds user1_json);
                      File (str "user2.json") 17 (Holds user2_json) ])
               Writable None
    = (Indexed [record1; record2], Some (table [record1; record2]))
    /\ search (Some (table [record1; record2])) (str "json")
       = Printed [ [ str "user1.json"; str "16"; Sniff.octet_stream;
                     str "data/user1.json" ];
                   [ str "user2.json"; str "17"; Sniff.octet_stream;
                     str "data/user2.json" ] ].
Proof.
  assert (Hex : ~ excluded (str "data")).
  { intros H. apply HasPrefix_excluded in H. discriminate H. }
  destruct (two_json_files_are_indexed_and_found
              slashJoin (str "data") (str "data") user1_json user2_json None
              Hex eq_refl eq_refl eq_refl eq_refl)
    as (record1 & record2 & HB & _ & _ & Hsearch & _).
  exists record1, record2. split; [exact HB | exact Hsearch].
Defined.

(** C3, against the claim.  Sixteen bytes of plain text in [user1.json]
    that start as a signature of the table does are given the type of
    that signature, here [image/bmp], and not the fallback type; and in
    a directory whose name starts with [.git] the two files are not
    indexed at all. *)
Lemma plain_text_json_file_is_typed_by_its_first_bytes :
  (forallb plainASCII (str "BMW and Audi car") = true
   /\ length (str "BMW and Audi car") = 16
   /\ forallb plainASCII user2_json = true
   /\ length user2_json = 17
   /\ BuildIndex slashJoin (str "data")
                 (Dir (str "data")
                      [ File (str "user1.json") 16
                             (Holds (str "BMW and Audi car"));
                        File (str "user2.json") 17 (Holds user2_json) ])
                 Writable None
      = (Indexed [ mkFileInfo (str "user1.json") 16 (str "image/bmp")
                              (str "data/user1.json");
                   mkFileInfo (str "user2.json") 17 Sniff.octet_stream
                              (str "data/user2.json") ],
         Some (table [ mkFileInfo (str "user1.json") 16 (str "image/bmp")
                                  (str "data/user1.json");
                       mkFileInfo (str "user2.json") 17 Sniff.octet_stream
                                  (str "data/user2.json") ]))
   /\ str "image/bmp" <> Sniff.octet_stream)
  /\ BuildIndex slashJoin (str ".github")
                (Dir (str ".github")
                     [ File (str "user1.json") 16 (Holds user1_json);
                       File (str "user2.json") 17 (Holds user2_json) ])
                Writable None
     = (Indexed [], Some (table [])).
Proof.
  split; [repeat split; try (vm_compute; reflexivity); discriminate |].
  vm_compute. reflexivity.
Qed.

(* ================================================================= *)
(** ** The command line: properties *)

(** *** One argument *)

(** What [parseOne] does when it sees a flag: no error, and the
    arguments left are those after the flag, or after the flag and its
    value. *)
Lemma parseOne_seen (g : globals) (args : list bytes) err g' args' :
  parseOne g args = (true, err, g', args') ->
  err = None
  /\ exists s, args = s :: args' \/ exists value, args = s :: value :: args'.
Proof.
  intros H. unfold parseOne in H. cbv zeta in H.
  destruct args as [| s args]; [discriminate H |].
  destruct s as [| c0 [| c1 s]]; try discriminate H.
  destruct (negb (beq c0 Minus)); [discriminate H |].
  destruct (beq c1 Minus && (length (c0 :: c1 :: s) =? 2));
    [discriminate H |].
  destruct (skipn _ (c0 :: c1 :: s)) as [| n0 name]; [discriminate H |].
  destruct (beq n0 Minus || beq n0 Equals); [discriminate H |].
  destruct (cutValue (n0 :: name)) as [name' value].
  destruct (formal name') as [v |]; [| destruct (_ || _); discriminate H].
  destruct (IsBoolFlag v).
  - destruct (Set_ v _ g); [| discriminate H]. injection H as <- _ <-.
    split; [reflexivity |]. eauto.
  - destruct value as [value |].
    + destruct (Set_ v value g); [| discriminate H]. injection H as <- _ <-.
      split; [reflexivity |]. eauto.
    + destruct args as [| value args'']; [discriminate H |].
      destruct (Set_ v value g); [| discriminate H]. injection H as <- _ <-.
      split; [reflexivity |]. eauto.
Qed.

(** Arguments added at the end do not change what [parseOne] does with a
    flag it sees. *)
Lemma parseOne_more (g : globals) (args more : list bytes) err g' args' :
  parseOne g args = (true, err, g', args') ->
  parseOne g (args ++ more) = (true, err, g', args' ++ more).
Proof.
  intros H. unfold parseOne in *. cbv zeta in *.
  destruct args as [| s args]; [discriminate H |]. cbn [app].
  destruct s as [| c0 [| c1 s]]; try discriminate H.
  destruct (negb (beq c0 Minus)); [discriminate H |].
  destruct (beq c1 Minus && (length (c0 :: c1 :: s) =? 2));
    [discriminate H |].
  destruct (skipn _ (c0 :: c1 :: s)) as [| n0 name]; [discriminate H |].
  destruct (beq n0 Minus || beq n0 Equals); [discriminate H |].
  destruct (cutValue (n0 :: name)) as [name' value].
  destruct (formal name') as [v |]; [| destruct (_ || _); discriminate H].
  destruct (IsBoolFlag v).
  - destruct (Set_ v _ g); [| discriminate H]. injection H as <- <- <-.
    reflexivity.
  - destruct value as [value |].
    + destruct (Set_ v value g); [| discriminate H]. injection H as <- <- <-.
      reflexivity.
    + destruct args as [| value args'']; [discriminate H |]. cbn [app].
      destruct (Set_ v value g); [| discriminate H]. injection H as <- <- <-.
      reflexivity.
Qed.

(** [parseOne] ends the loop without error and with nothing left only
    at the end of the arguments, or on two minus signs at their end. *)
Lemma parseOne_done (g : globals) (args : list bytes) g' :
  parseOne g args = (false, None, g', []) ->
  g' = g /\ (args = [] \/ args = [str "--"]).
Proof.
  intros H. unfold parseOne in H. cbv zeta in H.
  destruct args as [| s args]; [injection H as <-; auto |].
  destruct s as [| c0 [| c1 s]]; try discriminate H.
  destruct (beq c0 Minus) eqn:E0; cbn [negb] in H; [| discriminate H].
  destruct (beq c1 Minus) eqn:E1; cbn [andb] in H.
  - destruct (length (c0 :: c1 :: s) =? 2) eqn:El.
    + injection H as <- ->. apply beq_eq in E0 as ->, E1 as ->.
      destruct s; [auto | discriminate El].
    + destruct (skipn 2 (c0 :: c1 :: s)) as [| n0 name]; [discriminate H |].
      destruct (beq n0 Minus || beq n0 Equals); [discriminate H |].
      destruct (cutValue (n0 :: name)) as [name' value].
      destruct (formal name') as [v |]; [| destruct (_ || _); discriminate H].
      destruct (IsBoolFlag v).
      * destruct (Set_ v _ g); discriminate H.
      * destruct value as [value |]; [destruct (Set_ v value g); discriminate H |].
        destruct args as [| value args'']; [discriminate H |].
        destruct (Set_ v value g); discriminate H.
  - destruct (skipn 1 (c0 :: c1 :: s)) as [| n0 name]; [discriminate H |].
    destruct (beq n0 Minus || beq n0 Equals); [discriminate H |].
    destruct (cutValue (n0 :: name)) as [name' value].
    destruct (formal name') as [v |]; [| destruct (_ || _); discriminate H].
    destruct (IsBoolFlag v).
    + destruct (Set_ v _ g); discriminate H.
    + destruct value as [value |]; [destruct (Set_ v value g); discriminate H |].
      destruct args as [| value args'']; [discriminate H |].
      destruct (Set_ v value g); discriminate H.
Qed.

(** *** The loop *)

(** The bound on the iterations plays no part once it exceeds the number
    of arguments. *)
Lemma parseLoop_bound (n : nat) :
  forall m g args,
    length args < n -> length args < m ->
    parseLoop n g args = parseLoop m g args.
Proof.
  induction n as [| n IH]; intros m g args Hn Hm; [lia |].
  destruct m as [| m]; [lia |]. cbn [parseLoop].
  destruct (parseOne g args) as [[[seen err] g'] args'] eqn:E.
  destruct seen; [| reflexivity].
  destruct (parseOne_seen _ _ _ _ _ E) as [_ [s [-> | [value ->]]]];
    apply IH; cbn [length] in *; lia.
Qed.

Lemma parseLoop_app (more : list bytes) (g1 : globals) (n : nat) :
  forall args g,
    length args < n ->
    parseLoop n g args = (g1, [], None) ->
    ~ In (str "--") args ->
    forall m,
      length (args ++ more) < m ->
      parseLoop m g (args ++ more) = parseLoop (S (length more)) g1 more.
Proof.
  induction n as [| n IH]; intros args g Hn H Hdd m Hm; [lia |].
  cbn [parseLoop] in H.
  destruct (parseOne g args) as [[[seen err] g'] args'] eqn:E.
  destruct seen.
  - assert (E' := parseOne_more _ _ more _ _ _ E).
    destruct (parseOne_seen _ _ _ _ _ E) as [_ [s Hs]].
    destruct m as [| m]; [lia |]. cbn [parseLoop]. rewrite E'.
    destruct Hs as [-> | [value ->]].
    + apply (IH args' g'); cbn [length app] in *; try lia; [exact H |].
      intros Hin. apply Hdd. right. exact Hin.
    + apply (IH args' g'); cbn [length app] in *; try lia; [exact H |].
      intros Hin. apply Hdd. right. right. exact Hin.
  - injection H as -> -> ->.
    destruct (parseOne_done _ _ _ E) as [-> [-> | ->]].
    + cbn [app]. apply parseLoop_bound; cbn [app length] in *; lia.
    + exfalso. apply Hdd. left. reflexivity.
Qed.

(** X3.  The flags are read from left to right, each setting its
    variable in turn: when a list of arguments is read to its end without
    error, reading it with more arguments after it comes to reading
    these from the variables as the list has set them (two minus signs,
    which end the flags, set apart).  So a flag given again overrides the
    value given before: after any such list, a last search flag with a
    value sets the query to that value and leaves the rest as it was. *)
Theorem flags_are_read_left_to_right
    (args more : list bytes) (g1 : globals) :
  Parse args = (g1, [], None) ->
  ~ In (str "--") args ->
  Parse (args ++ more) = parseLoop (S (length more)) g1 more
  /\ forall flag value,
       In flag (spellings (str "s") (str "search")) ->
       Parse (args ++ [flag; value])
       = (mkGlobals (verbose g1)
                    (mkFlags (index (values g1)) value (directory (values g1))),
          [], None).
Proof.
  intros H Hdd. unfold Parse in *.
  assert (Happ : forall more,
             parseLoop (S (length (args ++ more))) defaults (args ++ more)
             = parseLoop (S (length more)) g1 more).
  { intros more'. apply (parseLoop_app more' g1 (S (length args)) args);
      (lia || assumption). }
  split; [apply Happ |]. intros flag value Hin. rewrite Happ.
  destruct Hin as [<- | [<- | [<- | [<- | []]]]]; reflexivity.
Qed.

Lemma flags_are_read_left_to_right_witness :
  Parse ([str "-s"; str "json"; str "--index"] ++ [str "-search"; str "user"])
  = (mkGlobals false (mkFlags true (str "user") []), [], None).
Proof.
  destruct (flags_are_read_left_to_right
              [str "-s"; str "json"; str "--index"] []
              (mkGlobals false (mkFlags true (str "json") [])))
    as [_ H].
  - reflexivity.
  - vm_compute. intuition discriminate.
  - apply H. vm_compute. auto.
Defined.

(** X1.  Every spelling of a flag does the same: its short or its long
    name, after one minus sign or two, sets the same variable.  The value
    of the search and directory flags is the next argument, whatever it
    holds (even what looks like a flag), or what follows an equals sign
    in the same argument; the index and verbose flags take no argument
    and are set to true.  The other variables keep their values, and the
    arguments after the flag and its value are left to be read. *)
Theorem every_spelling_sets_the_flag
    (g : globals) (value : bytes) (args : list bytes) :
  (forall flag,
      In flag (spellings (str "s") (str "search")) ->
      parseOne g (flag :: value :: args)
      = (true, None,
         mkGlobals (verbose g)
                   (mkFlags (index (values g)) value (directory (values g))),
         args)
      /\ parseOne g ((flag ++ Equals :: value) :: args)
         = (true, None,
            mkGlobals (verbose g)
                      (mkFlags (index (values g)) value (directory (values g))),
            args))
  /\ (forall flag,
         In flag (spellings (str "d") (str "directory")) ->
         parseOne g (flag :: value :: args)
         = (true, None,
            mkGlobals (verbose g)
                      (mkFlags (index (values g)) (searchQuery (values g)) value),
            args)
         /\ parseOne g ((flag ++ Equals :: value) :: args)
            = (true, None,
               mkGlobals (verbose g)
                         (mkFlags (index (values g)) (searchQuery (values g))
                                  value),
               args))
  /\ (forall flag,
         In flag (spellings (str "i") (str "index")) ->
         parseOne g (flag :: args)
         = (true, None,
            mkGlobals (verbose g)
                      (mkFlags true (searchQuery (values g))
                               (directory (values g))),
            args))
  /\ (forall flag,
         In flag (spellings (str "v") (str "verbose")) ->
         parseOne g (flag :: args)
         = (true, None, mkGlobals true (values g), args)).
Proof.
  split; [| split; [| split]]; intros flag Hin;
    destruct Hin as [<- | [<- | [<- | [<- | []]]]];
    try split; reflexivity.
Qed.

Lemma every_spelling_sets_the_flag_witness :
  parseOne defaults [str "--search"; str "-i"; str "-d"; str "docs"]
  = (true, None, mkGlobals false (mkFlags false (str "-i") []),
     [str "-d"; str "docs"])
  /\ parseOne defaults [str "-directory=a=b"; str "-i"]
     = (true, None, mkGlobals false (mkFlags false [] (str "a=b")),
        [str "-i"]).
Proof.
  split.
  - apply (proj1 (every_spelling_sets_the_flag
                    defaults (str "-i") [str "-d"; str "docs"])).
    vm_compute. auto.
  - apply (proj1 (proj2 (every_spelling_sets_the_flag
                           defaults (str "a=b") [str "-i"]))
                 (str "-directory")).
    vm_compute. auto.
Defined.

Section CommandLine.

Variable Join : bytes -> bytes -> bytes.

(** X2.  A first argument that is not a flag (the empty string, a single
    byte, or anything that does not start with a minus sign) ends the
    reading of the flags at once: every argument after it is ignored,
    flags included, the variables keep their defaults, and the run ends
    on the check that asks for a query or the index flag, [index.csv]
    being left as it was. *)
Theorem first_word_ends_the_flags
    (s : bytes) (args : list bytes) (tree : node) (disk : diskState)
    (indexCsv : option bytes) :
  HasPrefix s [Minus] = false \/ length s < 2 ->
  Parse (s :: args) = (defaults, s :: args, None)
  /\ program Join (s :: args) tree disk indexCsv
     = (Ran NoSearchOrIndex, indexCsv).
Proof.
  intros H.
  assert (HP : Parse (s :: args) = (defaults, s :: args, None)).
  { unfold Parse. cbn [parseLoop length]. unfold parseOne.
    destruct s as [| c0 [| c1 s]]; try reflexivity.
    destruct H as [H | H]; [| cbn [length] in H; lia].
    cbn [HasPrefix] in H. rewrite andb_true_r in H. rewrite H. reflexivity. }
  split; [exact HP |]. unfold program. rewrite HP. reflexivity.
Qed.

Lemma Parse_index (fi fd dir : bytes) :
  In fi (spellings (str "i") (str "index")) ->
  In fd (spellings (str "d") (str "directory")) ->
  Parse [fi; fd; dir] = (mkGlobals false (mkFlags true [] dir), [], None).
Proof.
  intros Hi Hd.
  destruct Hi as [<- | [<- | [<- | [<- | []]]]];
    destruct Hd as [<- | [<- | [<- | [<- | []]]]]; reflexivity.
Qed.

Lemma Parse_search (fs query : bytes) :
  In fs (spellings (str "s") (str "search")) ->
  Parse [fs; query] = (mkGlobals false (mkFlags false query []), [], None).
Proof.
  intros Hs. destruct Hs as [<- | [<- | [<- | [<- | []]]]]; reflexivity.
Qed.

Lemma Parse_index_search (fi fd dir fs query : bytes) :
  In fi (spellings (str "i") (str "index")) ->
  In fd (spellings (str "d") (str "directory")) ->
  In fs (spellings (str "s") (str "search")) ->
  Parse [fi; fd; dir; fs; query]
  = (mkGlobals false (mkFlags true query dir), [], None).
Proof.
  intros Hi Hd Hs.
  destruct Hi as [<- | [<- | [<- | [<- | []]]]];
    destruct Hd as [<- | [<- | [<- | [<- | []]]]];
    destruct Hs as [<- | [<- | [<- | [<- | []]]]]; reflexivity.
Qed.

Lemma BuildIndex_file (root : bytes) (tree : node) (disk : diskState)
                      (indexCsv : option bytes) :
  match fst (BuildIndex Join root tree disk indexCsv) with
  | Indexed files =>
      snd (BuildIndex Join root tree disk indexCsv) = Some (table files)
  | WriteFailed => True
  | _ => snd (BuildIndex Join root tree disk indexCsv) = indexCsv
  end.
Proof.
  unfold BuildIndex. destruct (Walk Join root tree []) as [files [e |]];
    [reflexivity |].
  destruct disk; cbn [fst snd]; auto.
Qed.

Lemma main_search (root query : bytes) (tree : node) (disk : diskState)
                  (indexCsv : option bytes) :
  query <> [] ->
  main Join (mkFlags false query root) tree disk indexCsv
  = (Searched (search indexCsv query), indexCsv).
Proof.
  intros Hq. unfold main. cbn [directory index searchQuery].
  destruct query as [| x q]; [congruence |].
  rewrite !andb_false_r. reflexivity.
Qed.

(** X5.  The command that indexes and searches at once does what the
    command that indexes followed by the command that searches do, with
    every spelling of the three flags: when the index command succeeds,
    the combined command leaves the same [index.csv] and applies to it
    the search that the search command then runs, with the same
    outcome.  When the index command fails, the combined command fails
    in the same way, leaves the same [index.csv], which is the file as it
    was unless a write failed, and runs no search. *)
Theorem combined_command_is_index_then_search
    (fi fd fs dir query : bytes) (tree : node) (disk : diskState)
    (indexCsv : option bytes) :
  In fi (spellings (str "i") (str "index")) ->
  In fd (spellings (str "d") (str "directory")) ->
  In fs (spellings (str "s") (str "search")) ->
  query <> [] ->
  match program Join [fi; fd; dir] tree disk indexCsv with
  | (Ran (IndexedOnly files), indexCsv1) =>
      exists r,
        program Join [fs; query] tree disk indexCsv1
        = (Ran (Searched r), indexCsv1)
        /\ program Join [fi; fd; dir; fs; query] tree disk indexCsv
           = (Ran (IndexedAndSearched files r), indexCsv1)
  | (failure, indexCsv1) =>
      (failure <> Ran (IndexFailed WriteFailed) -> indexCsv1 = indexCsv)
      /\ program Join [fi; fd; dir; fs; query] tree disk indexCsv
         = (failure, indexCsv1)
  end.
Proof.
  intros Hi Hd Hs Hq. unfold program.
  rewrite (Parse_index fi fd dir Hi Hd), (Parse_search fs query Hs),
    (Parse_index_search fi fd dir fs query Hi Hd Hs).
  cbn [values].
  destruct dir as [| c d].
  - destruct query as [| x q]; [congruence |]. cbn. auto.
  - rewrite !(main_index Join (c :: d)) by discriminate.
    assert (HB := BuildIndex_file (c :: d) tree disk indexCsv).
    destruct (BuildIndex Join (c :: d) tree disk indexCsv)
      as [[e | | | files] indexCsv1]; cbn [fst snd] in HB.
    + subst indexCsv1. auto.
    + subst indexCsv1. auto.
    + split; [congruence | reflexivity].
    + destruct query as [| x q]; [congruence |]. cbn [length Nat.eqb].
      exists (search indexCsv1 (x :: q)).
      rewrite main_search by discriminate. auto.
Qed.

End CommandLine.

Lemma first_word_ends_the_flags_witness :
  Parse [str "json"; str "-i"; str "-d"; str "test_data"]
  = (defaults, [str "json"; str "-i"; str "-d"; str "test_data"], None)
  /\ program slashJoin [str "json"; str "-i"; str "-d"; str "test_data"]
             test_data Writable None
     = (Ran NoSearchOrIndex, None).
Proof.
  apply first_word_ends_the_flags. left. vm_compute. reflexivity.
Defined.

Lemma combined_command_is_index_then_search_witness :
  exists files r,
    program slashJoin [str "-i"; str "--directory"; str "test_data"]
            test_data Writable None
    = (Ran (IndexedOnly files), Some (table files))
    /\ program slashJoin [str "--search"; str "user2"] test_data Writable
               (Some (table files))
       = (Ran (Searched r), Some (table files))
    /\ program slashJoin
               [str "-i"; str "--directory"; str "test_data";
                str "--search"; str "user2"]
               test_data Writable None
       = (Ran (IndexedAndSearched files r), Some (table files)).
Proof.
  assert (H := combined_command_is_index_then_search
                 slashJoin (str "-i") (str "--directory") (str "--search")
                 (str "test_data") (str "user2") test_data Writable None).
  assert (E : program slashJoin [str "-i"; str "--directory"; str "test_data"]
                      test_data Writable None
              = (Ran (IndexedOnly
                        (map recordOf
                             (visible slashJoin (str "test_data") test_data))),
                 Some (table
                         (map recordOf
                              (visible slashJoin (str "test_data") test_data)))))
    by (vm_compute; reflexivity).
  rewrite E in H.
  destruct H as (r & H1 & H2);
    [vm_compute; auto | vm_compute; auto | vm_compute; auto | discriminate |].
  exists (map recordOf (visible slashJoin (str "test_data") test_data)), r.
  split; [exact E | split; [exact H1 | exact H2]].
Defined.

(* ================================================================= *)
(** ** More of the table and of the types *)

Lemma numeric_first (c : ascii) (s : bytes) :
  numeric c = true ->
  bytes_eqb (c :: s) (str "\.") = false
  /\ Csv.IsSpace (Csv.DecodeRuneInString (c :: s)) = false
  /\ Csv.special c = false.
Proof.
  destruct c as [[] [] [] [] [] [] [] []]; intros H; vm_compute in H;
    try discriminate H; repeat split; reflexivity.
Qed.

Lemma numeric_not_special (s : bytes) :
  forallb numeric s = true -> existsb Csv.special s = false.
Proof.
  induction s as [| c s IH]; [reflexivity |]. cbn [forallb existsb].
  intros H. apply andb_true_iff in H as [Hc H].
  destruct (numeric_first c s Hc) as (_ & _ & ->). exact (IH H).
Qed.

Lemma numeric_unquoted (s : bytes) :
  forallb numeric s = true -> Csv.fieldNeedsQuotes s = false.
Proof.
  destruct s as [| c s]; [reflexivity |]. intros H.
  assert (Hs := numeric_not_special _ H).
  cbn [forallb] in H. apply andb_true_iff in H as [Hc _].
  destruct (numeric_first c s Hc) as (H1 & H2 & _).
  unfold Csv.fieldNeedsQuotes. rewrite H1, Hs. exact H2.
Qed.

Lemma writeField_unquoted (s : bytes) :
  Csv.fieldNeedsQuotes s = false -> Csv.writeField s = s.
Proof. intros H. unfold Csv.writeField. rewrite H. reflexivity. Qed.

Lemma type_unquoted (data : bytes) :
  Csv.fieldNeedsQuotes (Sniff.DetectContentType data) = false.
Proof.
  apply negb_true_iff.
  apply (SniffFacts.DetectContentType_all
           (fun ct => negb (Csv.fieldNeedsQuotes ct))).
  vm_compute. reflexivity.
Qed.

(** X12.  In the row written for a file, the size and the type are
    written as they are, never between quotes: the size is decimal
    digits after an optional minus sign, and no type the detector can
    answer is empty or holds a comma, a quote, a line break or a leading
    space.  Only the name and the path can be quoted, so the row is the
    name, a comma, the size, a comma, the type, a comma, the path and a
    newline. *)
Theorem size_and_type_are_written_unquoted
    (name path data : bytes) (size : Z) :
  Csv.Write (row (mkFileInfo name size (Sniff.DetectContentType data) path))
  = (Csv.writeField name
       ++ Comma :: FormatInt size
       ++ Comma :: Sniff.DetectContentType data
       ++ Comma :: Csv.writeField path) ++ [NL]
  /\ Sniff.DetectContentType data <> []
  /\ FormatInt size <> [].
Proof.
  split; [| split].
  - unfold Csv.Write, row. cbn [Name Size Type_ Path Csv.writeFields].
    rewrite (writeField_unquoted (FormatInt size))
      by apply numeric_unquoted, FormatInt_numeric.
    rewrite (writeField_unquoted (Sniff.DetectContentType data))
      by apply type_unquoted.
    reflexivity.
  - assert (H := SniffFacts.DetectContentType_all
                   (fun ct => negb (length ct =? 0)) data eq_refl).
    intros E. rewrite E in H. discriminate H.
  - unfold FormatInt. destruct (Z.to_int size) as [[] | []]; discriminate.
Qed.

(** *** The byte order mark *)

Module BomFacts.
Import Sniff.










End BomFacts.



(* ================================================================= *)
(** ** The runs [main] refuses *)

Section Refused.

Variable Join : bytes -> bytes -> bytes.

(** X18.  With every spelling of the flags, a run that lacks what it
    needs ends before anything is read or written.  The index flag
    without a directory ends on the first check, even with a query, so
    nothing is searched; no flag at all, a directory alone, or a search
    flag with the empty query ends on the second check.  And a search
    with a query, when there is no [index.csv], ends on the failure to
    open it and creates nothing. *)
Theorem runs_that_lack_an_argument_are_refused
    (fi fd fs dir query : bytes) (tree : node) (disk : diskState)
    (indexCsv : option bytes) :
  In fi (spellings (str "i") (str "index")) ->
  In fd (spellings (str "d") (str "directory")) ->
  In fs (spellings (str "s") (str "search")) ->
  program Join [fi] tree disk indexCsv = (Ran NoDirectory, indexCsv)
  /\ program Join [fi; fs; query] tree disk indexCsv
     = (Ran NoDirectory, indexCsv)
  /\ program Join [] tree disk indexCsv = (Ran NoSearchOrIndex, indexCsv)
  /\ program Join [fd; dir] tree disk indexCsv
     = (Ran NoSearchOrIndex, indexCsv)
  /\ program Join [fs; []] tree disk indexCsv
     = (Ran NoSearchOrIndex, indexCsv)
  /\ (query <> [] ->
      program Join [fs; query] tree disk None
      = (Ran (Searched IndexNotFound), None)).
Proof.
  intros Hi Hd Hs.
  destruct Hi as [<- | [<- | [<- | [<- | []]]]];
    destruct Hd as [<- | [<- | [<- | [<- | []]]]];
    destruct Hs as [<- | [<- | [<- | [<- | []]]]];
    (split; [reflexivity |]); (split; [reflexivity |]);
    (split; [reflexivity |]); (split; [destruct dir; reflexivity |]);
    (split; [reflexivity |]);
    intros Hq; (destruct query; [congruence | reflexivity]).
Qed.

End Refused.

Lemma runs_that_lack_an_argument_are_refused_witness :
  program slashJoin [str "--index"; str "-s"; str "user"] test_data Writable
          (Some (table []))
  = (Ran NoDirectory, Some (table []))
  /\ program slashJoin [str "-s"; str "user"] test_data Writable None
     = (Ran (Searched IndexNotFound), None).
Proof.
  destruct (runs_that_lack_an_argument_are_refused
              slashJoin (str "--index") (str "-d") (str "-s") (str "docs")
              (str "user") test_data Writable (Some (table [])))
    as (_ & H & _); [vm_compute; auto | vm_compute; auto | vm_compute; auto |].
  destruct (runs_that_lack_an_argument_are_refused
              slashJoin (str "--index") (str "-d") (str "-s") (str "docs")
              (str "user") test_data Writable None)
    as (_ & _ & _ & _ & _ & H');
    [vm_compute; auto | vm_compute; auto | vm_compute; auto |].
  split; [exact H | apply H'; discriminate].
Defined.
